(** * The HDFS environment of rocksdb (util/env_hdfs.cc)

    A shallow embedding of the file wrappers, the logger and the
    environment operations of [util/env_hdfs.cc], and the properties of
    them that the specification states.

    Every operation of the file is a short sequence of blocking calls to
    libhdfs.  A method is embedded as a program ([Prog]) that issues those
    calls one after the other and continues with the answer of each; a
    program is run against a client ([Client]), a state machine that answers
    the calls.  Running a program yields its outcome, the final state of the
    client and the list of calls that were made, in order, with their
    answers. *)

From Stdlib Require Import ZArith Lia Bool List Ascii String.
From Stdlib Require Import DecimalString HexadecimalString.
From stdpp Require Import base option list gmap strings.

Local Open Scope string_scope.
Local Open Scope Z_scope.

(** ** Integer types of the C++ source *)

Module Ints.

(** [size_t] and [uint64_t]: 64-bit unsigned (an LP64 platform). *)
Definition to_uint64 (z : Z) : Z := z mod 2 ^ 64.

(** Conversion to a signed type of [w] bits (two's complement). *)
Definition to_signed (w : Z) (z : Z) : Z :=
  (z + 2 ^ (w - 1)) mod 2 ^ w - 2 ^ (w - 1).

(** [tSize] and [tOffset] are declared in hdfs/hdfs.h, which is not among
    the sources at hand.  They are taken as libhdfs declares them: [tSize]
    is [int32_t] and [tOffset] is [int64_t].  The code agrees with signed
    types: it tests the results of [hdfsPread], [hdfsTell] and [hdfsSeek]
    for [< 0].  [int] is 32 bits. *)
Definition to_tSize (z : Z) : Z := to_signed 32 z.
Definition to_tOffset (z : Z) : Z := to_signed 64 z.
Definition to_int (z : Z) : Z := to_signed 32 z.

Definition in_tOffset (z : Z) : Prop := - 2 ^ 63 <= z < 2 ^ 63.

End Ints.
Export Ints.

(** ** Status *)

(** [rocksdb::Status], as far as this file builds it.  [Status::IOError]
    carries the context and [strerror(err_number)]; the error number stands
    for its message here. *)
Inductive Status : Type :=
| OK
| StIOError (context : string) (err_number : Z)
| StNotSupported (msg : string).

(** ** Data exchanged with libhdfs *)

(** [hdfsFile]: an open file of the client; the null pointer is [None]. *)
Definition hdfsFile : Type := option Z.

Record hdfsFileInfo : Type := mkFileInfo {
  mName : string;
  mSize : Z;
  mLastMod : Z
}.

(** What [hdfsRead] and [hdfsPread] leave behind: the returned count and the
    bytes now held by the caller's buffer. *)
Record ReadReply : Type := mkReadReply {
  rd_count : Z;
  rd_buffer : list Byte.byte
}.

(** What [hdfsListDirectory] leaves behind: the returned array (null is
    [None]) and the value of [*numEntries]. *)
Record ListReply : Type := mkListReply {
  ls_infos : option (list hdfsFileInfo);
  ls_numEntries : Z
}.

(** [struct timeval] and the fields of [struct tm] that the logger prints. *)
Record timeval : Type := mkTimeval { tv_sec : Z; tv_usec : Z }.

Record tm : Type := mkTm {
  tm_year : Z; tm_mon : Z; tm_mday : Z;
  tm_hour : Z; tm_min : Z; tm_sec : Z
}.

(** [rocksdb::Slice]: a pointer and a length.  The pointer is always the
    caller's scratch buffer, whose content is kept in [data_]. *)
Record Slice : Type := mkSlice {
  data_ : list Byte.byte;
  size_ : Z
}.

Definition O_RDONLY : Z := 0.
Definition O_WRONLY : Z := 1.

(** ** Calls *)

(** The calls that leave the file: the libhdfs API (all on the one
    connection [fileSys_], which is left out of the arguments, as are the
    buffer size, replication and block size of [hdfsOpenFile], always 0),
    the read of [errno], and the clock and thread identifier that the logger
    asks for.  The index is the type of the answer. *)
Inductive call : Type -> Type :=
| hdfsOpenFile (path : string) (flags : Z) : call hdfsFile
| hdfsCloseFile (file : hdfsFile) : call Z
| hdfsRead (file : hdfsFile) (length : Z) : call ReadReply
| hdfsPread (file : hdfsFile) (position : Z) (length : Z) : call ReadReply
| hdfsWrite (file : hdfsFile) (buffer : list Byte.byte) (length : Z) : call Z
| hdfsTell (file : hdfsFile) : call Z
| hdfsSeek (file : hdfsFile) (desiredPos : Z) : call Z
| hdfsFlush (file : hdfsFile) : call Z
| hdfsSync (file : hdfsFile) : call Z
| hdfsExists (path : string) : call Z
| hdfsListDirectory (path : string) : call ListReply
| hdfsGetPathInfo (path : string) : call (option hdfsFileInfo)
| hdfsDelete (path : string) : call Z
| hdfsRename (oldPath newPath : string) : call Z
| hdfsCreateDirectory (path : string) : call Z
| errno : call Z
| gettid_ : call Z
| gettimeofday : call timeval
| localtime_r (seconds : Z) : call tm.

(** A call together with its answer. *)
Inductive Event : Type :=
| Ev {X : Type} (c : call X) (x : X).

(** The calls that go to the remote file system. *)
Definition is_remote {X : Type} (c : call X) : bool :=
  match c with
  | errno | gettid_ | gettimeofday | localtime_r _ => false
  | _ => true
  end.

Definition remote_event (e : Event) : bool :=
  match e with Ev c _ => is_remote c end.

Definition remote (tr : list Event) : list Event :=
  List.filter remote_event tr.

(** ** Programs *)

(** How a method ends other than by returning: it throws
    [HdfsFatalException], an [assert] fails, or it reads or writes memory it
    must not. *)
Inductive Failure : Type :=
| Fatal (msg : string)
| AssertionFailed
| Undefined.

Inductive Outcome (A : Type) : Type :=
| Normal (a : A)
| Failed (why : Failure).
Arguments Normal {A} a.
Arguments Failed {A} why.

Inductive Prog (A : Type) : Type :=
| Ret (a : A)
| Stop (why : Failure)
| Vis {X : Type} (c : call X) (k : X -> Prog A).
Arguments Ret {A} a.
Arguments Stop {A} why.
Arguments Vis {A X} c k.

Fixpoint bind {A B : Type} (p : Prog A) (f : A -> Prog B) : Prog B :=
  match p with
  | Ret a => f a
  | Stop why => Stop why
  | Vis c k => Vis c (fun x => bind (k x) f)
  end.

Definition do {X : Type} (c : call X) : Prog X := Vis c Ret.

Definition throw {A : Type} (msg : string) : Prog A := Stop (Fatal msg).

Notation "x <- p ;; q" := (bind p (fun x => q))
  (at level 100, p at next level, right associativity).
Notation "p ;;; q" := (bind p (fun _ => q))
  (at level 100, right associativity).

(** ** Clients *)

Record Client : Type := mkClient {
  St : Type;
  answer : forall X : Type, call X -> St -> X * St
}.
Arguments answer _ {X} _ _.

Record Run (A : Type) (S : Type) : Type := mkRun {
  outcome : Outcome A;
  final : S;
  trace : list Event
}.
Arguments mkRun {A S} outcome final trace.
Arguments outcome {A S} _.
Arguments final {A S} _.
Arguments trace {A S} _.

Definition logged {A S : Type} (e : Event) (r : Run A S) : Run A S :=
  mkRun (outcome r) (final r) (e :: trace r).

Fixpoint run {A : Type} (cl : Client) (p : Prog A) (s : St cl) : Run A (St cl) :=
  match p with
  | Ret a => mkRun (Normal a) s []
  | Stop why => mkRun (Failed why) s []
  | Vis c k =>
      let '(x, s') := answer cl c s in
      logged (Ev c x) (run cl (k x) s')
  end.

(** ** How the file is compiled *)

(** Two things about the build change what the code does: whether [assert]
    is compiled out ([NDEBUG]), and which operand of [==] in
    [HdfsReadableFile::feof] is evaluated first, which C++ leaves to the
    compiler. *)
Record Compilation : Type := mkCompilation {
  NDEBUG : bool;
  left_operand_first : bool
}.

Definition assert_ (cc : Compilation) (cond : bool) : Prog unit :=
  if NDEBUG cc || cond then Ret tt else Stop AssertionFailed.

(** The file-local helper [IOError(context, err_number)]; every call site
    passes [errno]. *)
Definition IOError (context : string) : Prog Status :=
  err_number <- do errno ;;
  Ret (StIOError context err_number).

(** [Log(mylog, ...)]: [mylog] is initialised to [nullptr] and the one
    assignment to it is commented out, so every [Log] call of the file is
    made on a null logger and does nothing.  The calls are left out. *)

(** ** HdfsReadableFile *)

Module HdfsReadableFile.

Record t : Type := mk {
  filename_ : string;
  hfile_ : hdfsFile
}.

(** The constructor. *)
Definition new (fname : string) : Prog t :=
  h <- do (hdfsOpenFile fname O_RDONLY) ;;
  Ret (mk fname h).

(** The destructor: closes whatever [hfile_] holds. *)
Definition delete (f : t) : Prog unit :=
  _ <- do (hdfsCloseFile (hfile_ f)) ;;
  Ret tt.

Definition isValid (f : t) : bool :=
  match hfile_ f with Some _ => true | None => false end.

(** The current size of the file. *)
Definition fileSize (f : t) : Prog Z :=
  pFileInfo <- do (hdfsGetPathInfo (filename_ f)) ;;
  match pFileInfo with
  | Some info => Ret (mSize info)
  | None => throw (String.append "fileSize on unknown file " (filename_ f))
  end.

(** [hdfsTell(fileSys_, hfile_) == fileSize()]. *)
Definition feof (cc : Compilation) (f : t) : Prog bool :=
  if left_operand_first cc then
    pos <- do (hdfsTell (hfile_ f)) ;;
    size <- fileSize f ;;
    Ret (pos =? size)
  else
    size <- fileSize f ;;
    pos <- do (hdfsTell (hfile_ f)) ;;
    Ret (pos =? size).

(** Sequential access: [Read(size_t n, Slice* result, char* scratch)].
    The count that [hdfsRead] returns is a [tSize] and is stored in a
    [size_t]. *)
Definition Read (cc : Compilation) (f : t) (n : Z) : Prog (Status * Slice) :=
  reply <- do (hdfsRead (hfile_ f) (to_tSize n)) ;;
  let bytes_read := to_uint64 (rd_count reply) in
  let result := mkSlice (rd_buffer reply) bytes_read in
  if bytes_read <? n then
    at_end <- feof cc f ;;
    if at_end : bool then Ret (OK, result)
    else
      s <- IOError (filename_ f) ;;
      Ret (s, result)
  else Ret (OK, result).

(** Random access: [Read(uint64_t offset, size_t n, Slice* result,
    char* scratch)].  The count is stored in an [ssize_t], which keeps
    its value. *)
Definition Read_at (f : t) (offset n : Z) : Prog (Status * Slice) :=
  reply <- do (hdfsPread (hfile_ f) (to_tOffset offset) (to_tSize n)) ;;
  let bytes_read := rd_count reply in
  let result :=
    mkSlice (rd_buffer reply) (if bytes_read <? 0 then 0 else bytes_read) in
  if bytes_read <? 0 then
    s <- IOError (filename_ f) ;;
    Ret (s, result)
  else Ret (OK, result).

(** [Skip(uint64_t n)].  [current + n] is computed in [uint64_t] and
    stored in a [tOffset]. *)
Definition Skip (f : t) (n : Z) : Prog Status :=
  current <- do (hdfsTell (hfile_ f)) ;;
  if current <? 0 then IOError (filename_ f)
  else
    let newoffset := to_tOffset (to_uint64 (to_uint64 current + n)) in
    val <- do (hdfsSeek (hfile_ f) newoffset) ;;
    if val <? 0 then IOError (filename_ f)
    else Ret OK.

End HdfsReadableFile.

(** ** HdfsWritableFile *)

Module HdfsWritableFile.

Record t : Type := mk {
  filename_ : string;
  hfile_ : hdfsFile
}.

Definition isValid (f : t) : bool :=
  match hfile_ f with Some _ => true | None => false end.

Definition getName (f : t) : string := filename_ f.

(** The constructor; it ends with [assert(hfile_ != nullptr)]. *)
Definition new (cc : Compilation) (fname : string) : Prog t :=
  h <- do (hdfsOpenFile fname O_WRONLY) ;;
  let f := mk fname h in
  assert_ cc (isValid f) ;;;
  Ret f.

(** The destructor: closes the file if [hfile_] is not null. *)
Definition delete (f : t) : Prog unit :=
  match hfile_ f with
  | Some _ =>
      _ <- do (hdfsCloseFile (hfile_ f)) ;;
      Ret tt
  | None => Ret tt
  end.

(** [Append(const Slice& data)]: the count that [hdfsWrite] returns is
    stored in a [size_t] and compared with [data.size()]. *)
Definition Append (f : t) (data : list Byte.byte) : Prog Status :=
  let left := Z.of_nat (List.length data) in
  r <- do (hdfsWrite (hfile_ f) data (to_tSize left)) ;;
  let ret := to_uint64 r in
  if negb (ret =? left) then IOError (filename_ f)
  else Ret OK.

Definition Flush (f : t) : Prog Status := Ret OK.

Definition Sync (f : t) : Prog Status :=
  r1 <- do (hdfsFlush (hfile_ f)) ;;
  if r1 =? -1 then IOError (filename_ f)
  else
    r2 <- do (hdfsSync (hfile_ f)) ;;
    if r2 =? -1 then IOError (filename_ f)
    else Ret OK.

(** [Append(const char* src, size_t size)], used by the logger: the
    count is compared with [(tSize)size]. *)
Definition Append_raw (f : t) (src : list Byte.byte) : Prog Status :=
  let size := Z.of_nat (List.length src) in
  r <- do (hdfsWrite (hfile_ f) src (to_tSize size)) ;;
  if negb (r =? to_tSize size) then IOError (filename_ f)
  else Ret OK.

(** [Close()]: returns the status and the object as the call leaves
    it. *)
Definition Close (f : t) : Prog (Status * t) :=
  r <- do (hdfsCloseFile (hfile_ f)) ;;
  if negb (r =? 0) then
    s <- IOError (filename_ f) ;;
    Ret (s, f)
  else Ret (OK, mk (filename_ f) None).

End HdfsWritableFile.

(** ** Character buffers *)

(** A [char] array of fixed capacity.  A cell that holds [None] has not
    been written yet.  A store outside the array and a load of a cell
    outside the array or not yet written have no result. *)
Module Mem.

Abbreviation buffer := (list (option Byte.byte)).

Definition alloc (n : Z) : buffer := repeat None (Z.to_nat n).

Definition capacity (b : buffer) : Z := Z.of_nat (List.length b).

Definition store (b : buffer) (i : Z) (c : Byte.byte) : option buffer :=
  if (0 <=? i) && (i <? capacity b)
  then Some (<[Z.to_nat i := Some c]> b)
  else None.

Definition load (b : buffer) (i : Z) : option Byte.byte :=
  if 0 <=? i then mjoin (b !! Z.to_nat i) else None.

Fixpoint store_all (b : buffer) (i : Z) (cs : list Byte.byte) : option buffer :=
  match cs with
  | [] => Some b
  | c :: cs' => b' ← store b i c; store_all b' (i + 1) cs'
  end.

Fixpoint load_range (b : buffer) (i : Z) (n : nat) : option (list Byte.byte) :=
  match n with
  | O => Some []
  | S n' => c ← load b i; cs ← load_range b (i + 1) n'; Some (c :: cs)
  end.

(** [snprintf(buf + p, size, ...)] and [vsnprintf], for a format and
    arguments that render as [text]: at most [size - 1] bytes of the text
    are stored, followed by a NUL; nothing is stored when [size] is 0.
    The value returned is the length of the whole text.  (Formatting is
    taken to succeed, with a length that fits an [int].) *)
Definition snprintf (b : buffer) (p : Z) (size : Z) (text : list Byte.byte)
  : option buffer * Z :=
  (if size =? 0 then Some b
   else store_all b p (take (Z.to_nat (size - 1)) text ++ [Byte.x00]),
   Z.of_nat (List.length text)).

End Mem.

Definition newline : Byte.byte := Byte.x0a.

Definition mem {A : Type} (o : option A) : Prog A :=
  match o with
  | Some a => Ret a
  | None => Stop Undefined
  end.

(** ** printf conversions of the log header *)

Module Printf.

Definition bytes (s : string) : list Byte.byte := list_byte_of_string s.

Definition decimal (n : N) : list Byte.byte :=
  bytes (DecimalString.NilZero.string_of_uint (N.to_uint n)).

Definition hexadecimal (n : N) : list Byte.byte :=
  bytes (HexadecimalString.NilZero.string_of_uint (N.to_hex_uint n)).

(** ["%0<width>d"] of an [int]. *)
Definition d0 (width : nat) (v : Z) : list Byte.byte :=
  let digits := decimal (Z.abs_N v) in
  let sign := if v <? 0 then bytes "-" else [] in
  sign ++ repeat Byte.x30 (width - List.length sign - List.length digits) ++ digits.

(** ["%llx"] of an [unsigned long long]. *)
Definition llx (v : Z) : list Byte.byte :=
  hexadecimal (Z.to_N (to_uint64 v)).

End Printf.

(** ** HdfsLogger *)

Module HdfsLogger.

Record t : Type := mk {
  file_ : HdfsWritableFile.t
}.

(** The constructor only stores its arguments; [gettid_] is the call of
    that name. *)
Definition new (f : HdfsWritableFile.t) : Prog t := Ret (mk f).

(** The destructor deletes the file. *)
Definition delete (lg : t) : Prog unit :=
  HdfsWritableFile.delete (file_ lg).

(** The text of
    ["%04d/%02d/%02d-%02d:%02d:%02d.%06d %llx "]. *)
Definition header (t : tm) (now_tv : timeval) (thread_id : Z) : list Byte.byte :=
  Printf.d0 4 (tm_year t + 1900) ++ Printf.bytes "/" ++
  Printf.d0 2 (tm_mon t + 1) ++ Printf.bytes "/" ++
  Printf.d0 2 (tm_mday t) ++ Printf.bytes "-" ++
  Printf.d0 2 (tm_hour t) ++ Printf.bytes ":" ++
  Printf.d0 2 (tm_min t) ++ Printf.bytes ":" ++
  Printf.d0 2 (tm_sec t) ++ Printf.bytes "." ++
  Printf.d0 6 (to_int (tv_usec now_tv)) ++ Printf.bytes " " ++
  Printf.llx thread_id ++ Printf.bytes " ".

Definition bufsize_of (iter : Z) : Z :=
  if iter =? 0 then 500 else 30000.

(** One pass of the body of the loop of [Logv], up to the truncation
    test.  Pointers into the buffer are offsets from [base]; [limit] is
    [bufsize].  The result is [None] for [continue], and otherwise the
    buffer and [p]. *)
Definition format (iter : Z) (head message : list Byte.byte)
  : Prog (option (Mem.buffer * Z)) :=
  let bufsize := bufsize_of iter in
  let base := Mem.alloc bufsize in
  let limit := bufsize in
  let p := 0 in
  let '(written, n) := Mem.snprintf base p (to_uint64 (limit - p)) head in
  buf <- mem written ;;
  let p := p + n in
  formatted <-
    (if p <? limit then
       let '(written, n) :=
         Mem.snprintf buf p (to_uint64 (limit - p)) message in
       buf <- mem written ;;
       Ret (buf, p + n)
     else Ret (buf, p)) ;;
  let '(buf, p) := formatted in
  if p >=? limit then
    if iter =? 0 then Ret None
    else Ret (Some (buf, limit - 1))
  else Ret (Some (buf, p)).

(** The rest of the body: the newline, the assertion, and the write of
    [p - base] bytes from [base]. *)
Definition emit (cc : Compilation) (lg : t) (iter : Z) (buf : Mem.buffer) (p : Z)
  : Prog unit :=
  let limit := bufsize_of iter in
  needs_newline <-
    (if p =? 0 then Ret true
     else
       last <- mem (Mem.load buf (p - 1)) ;;
       Ret (negb (Byte.eqb last newline))) ;;
  ended <-
    (if needs_newline : bool then
       buf <- mem (Mem.store buf p newline) ;;
       Ret (buf, p + 1)
     else Ret (buf, p)) ;;
  let '(buf, p) := ended in
  assert_ cc (p <=? limit) ;;;
  line <- mem (Mem.load_range buf 0 (Z.to_nat p)) ;;
  _ <- HdfsWritableFile.Append_raw (file_ lg) line ;;
  _ <- HdfsWritableFile.Flush (file_ lg) ;;
  Ret tt.

(** [for (int iter = 0; iter < 2; iter++)], by recursion on the number of
    passes that remain. *)
Fixpoint passes (cc : Compilation) (lg : t) (thread_id : Z)
    (message : list Byte.byte) (remaining : nat) (iter : Z) : Prog unit :=
  match remaining with
  | O => Ret tt
  | S remaining' =>
      now_tv <- do gettimeofday ;;
      t <- do (localtime_r (tv_sec now_tv)) ;;
      formatted <- format iter (header t now_tv thread_id) message ;;
      match formatted with
      | None => passes cc lg thread_id message remaining' (iter + 1)
      | Some (buf, p) => emit cc lg iter buf p
      end
  end.

(** [Logv(format, ap)], for a format and arguments that render as
    [message]. *)
Definition Logv (cc : Compilation) (lg : t) (message : list Byte.byte) : Prog unit :=
  thread_id <- do gettid_ ;;
  passes cc lg thread_id message 2 0.

End HdfsLogger.

(** ** C strings *)

Module CString.

Definition slash : ascii := "/"%char.

(** [rindex(s, c)]: the rest of [s] from the last occurrence of [c] on;
    [None] is the null pointer. *)
Fixpoint rindex (s : string) (c : ascii) : option string :=
  match s with
  | EmptyString => None
  | String a rest =>
      match rindex rest c with
      | Some found => Some found
      | None => if Ascii.eqb a c then Some s else None
      end
  end.

(** [s + 1]: the string after its first character. *)
Definition next (s : string) : string :=
  match s with
  | EmptyString => EmptyString
  | String _ rest => rest
  end.

Definition line_feed : string := String (ascii_of_nat 10) EmptyString.

End CString.

(** ** HdfsEnv *)

Module HdfsEnv.

(** [new T(...)]: runs the constructor and yields a pointer to the
    object, which is never null. *)
Definition new_ {T : Type} (constructor : Prog T) : Prog (option T) :=
  object <- constructor ;;
  Ret (Some object).

(** The factories return the status and [*result]. *)
Definition NewSequentialFile (fname : string)
  : Prog (Status * option HdfsReadableFile.t) :=
  f <- new_ (HdfsReadableFile.new fname) ;;
  match f with
  | None =>
      s <- IOError fname ;;
      Ret (s, None)
  | Some _ => Ret (OK, f)
  end.

Definition NewRandomAccessFile (fname : string)
  : Prog (Status * option HdfsReadableFile.t) :=
  f <- new_ (HdfsReadableFile.new fname) ;;
  match f with
  | None =>
      s <- IOError fname ;;
      Ret (s, None)
  | Some _ => Ret (OK, f)
  end.

Definition NewWritableFile (cc : Compilation) (fname : string)
  : Prog (Status * option HdfsWritableFile.t) :=
  f <- new_ (HdfsWritableFile.new cc fname) ;;
  match f with
  | Some w =>
      if negb (HdfsWritableFile.isValid w) then
        s <- IOError fname ;;
        Ret (s, None)
      else Ret (OK, f)
  | None =>
      s <- IOError fname ;;
      Ret (s, None)
  end.

Definition NewRandomRWFile (fname : string) : Prog Status :=
  Ret (StNotSupported "NewRandomRWFile not supported on HdfsEnv").

Definition FileExists (fname : string) : Prog bool :=
  value <- do (hdfsExists fname) ;;
  if value =? 0 then Ret true
  else Ret false.

(** The loop of [GetChildren] over [pHdfsFileInfo[i]], [i < numEntries],
    by recursion on the number of entries that remain. *)
Fixpoint push_entries (pHdfsFileInfo : option (list hdfsFileInfo))
    (remaining : nat) (i : Z) (result : list string) : Prog (list string) :=
  match remaining with
  | O => Ret result
  | S remaining' =>
      info <- mem (infos ← pHdfsFileInfo; infos !! Z.to_nat i) ;;
      let pathname := mName info in
      let filename := CString.rindex pathname CString.slash in
      let result :=
        match filename with
        | Some found => (result ++ [CString.next found])%list
        | None => result
        end in
      push_entries pHdfsFileInfo remaining' (i + 1) result
  end.

(** [GetChildren(path, result)]: [result] is the vector that the caller
    passes; the vector is returned as the call leaves it.
    [hdfsFreeFileInfo] only releases memory and is left out. *)
Definition GetChildren (path : string) (result : list string)
  : Prog (Status * list string) :=
  value <- do (hdfsExists path) ;;
  if value =? 0 then
    reply <- do (hdfsListDirectory path) ;;
    let numEntries := ls_numEntries reply in
    if numEntries >=? 0 then
      result <- push_entries (ls_infos reply) (Z.to_nat numEntries) 0 result ;;
      Ret (OK, result)
    else
      throw (String.append "hdfsListDirectory call failed negative error."
                           CString.line_feed)
  else if value =? 1 then Ret (OK, result)
  else
    throw (String.append "hdfsListDirectory call failed with error."
                         CString.line_feed).

Definition DeleteFile (fname : string) : Prog Status :=
  r <- do (hdfsDelete fname) ;;
  if r =? 0 then Ret OK
  else IOError fname.

Definition CreateDir (name : string) : Prog Status :=
  r <- do (hdfsCreateDirectory name) ;;
  if r =? 0 then Ret OK
  else IOError name.

Definition CreateDirIfMissing (name : string) : Prog Status :=
  value <- do (hdfsExists name) ;;
  if value =? 0 then Ret OK
  else CreateDir name.

Definition DeleteDir (name : string) : Prog Status :=
  DeleteFile name.

Definition GetFileSize (fname : string) : Prog (Status * Z) :=
  let size := 0 in
  pFileInfo <- do (hdfsGetPathInfo fname) ;;
  match pFileInfo with
  | Some info => Ret (OK, to_uint64 (mSize info))
  | None =>
      s <- IOError fname ;;
      Ret (s, size)
  end.

Definition GetFileModificationTime (fname : string) (time : Z)
  : Prog (Status * Z) :=
  pFileInfo <- do (hdfsGetPathInfo fname) ;;
  match pFileInfo with
  | Some info => Ret (OK, to_uint64 (mLastMod info))
  | None =>
      s <- IOError fname ;;
      Ret (s, time)
  end.

(** The rename is not atomic: the target is deleted before the rename
    is attempted, and the value of [hdfsDelete] is dropped. *)
Definition RenameFile (src target : string) : Prog Status :=
  _ <- do (hdfsDelete target) ;;
  r <- do (hdfsRename src target) ;;
  if r =? 0 then Ret OK
  else IOError src.

Definition LockFile (fname : string) : Prog Status := Ret OK.

Definition UnlockFile : Prog Status := Ret OK.

Definition NewLogger (cc : Compilation) (fname : string)
  : Prog (Status * option HdfsLogger.t) :=
  f <- new_ (HdfsWritableFile.new cc fname) ;;
  match f with
  | Some w =>
      if negb (HdfsWritableFile.isValid w) then
        s <- IOError fname ;;
        Ret (s, None)
      else
        h <- new_ (HdfsLogger.new w) ;;
        Ret (OK, h)
  | None =>
      s <- IOError fname ;;
      Ret (s, None)
  end.

End HdfsEnv.

(** ** Reference clients *)

(** A client that gives the same answer to every call of a kind. *)
Module Canned.

Record Answers : Type := mk {
  on_open : hdfsFile;
  on_close : Z;
  on_read : ReadReply;
  on_pread : ReadReply;
  on_write : Z;
  on_tell : Z;
  on_seek : Z;
  on_flush : Z;
  on_sync : Z;
  on_exists : Z;
  on_list : ListReply;
  on_stat : option hdfsFileInfo;
  on_delete : Z;
  on_rename : Z;
  on_mkdir : Z;
  on_errno : Z;
  on_gettid : Z;
  on_clock : timeval;
  on_localtime : tm
}.

Definition reply (a : Answers) (X : Type) (c : call X) : X :=
  match c in call T return T with
  | hdfsOpenFile _ _ => on_open a
  | hdfsCloseFile _ => on_close a
  | hdfsRead _ _ => on_read a
  | hdfsPread _ _ _ => on_pread a
  | hdfsWrite _ _ _ => on_write a
  | hdfsTell _ => on_tell a
  | hdfsSeek _ _ => on_seek a
  | hdfsFlush _ => on_flush a
  | hdfsSync _ => on_sync a
  | hdfsExists _ => on_exists a
  | hdfsListDirectory _ => on_list a
  | hdfsGetPathInfo _ => on_stat a
  | hdfsDelete _ => on_delete a
  | hdfsRename _ _ => on_rename a
  | hdfsCreateDirectory _ => on_mkdir a
  | errno => on_errno a
  | gettid_ => on_gettid a
  | gettimeofday => on_clock a
  | localtime_r _ => on_localtime a
  end.

Definition client (a : Answers) : Client :=
  mkClient unit (fun X c s => (reply a X c, s)).

Definition EIO : Z := 5.

Definition epoch : tm := mkTm 70 0 1 0 0 0.

(** Every call fails. *)
Definition failing : Answers :=
  mk None (-1) (mkReadReply (-1) []) (mkReadReply (-1) []) (-1) (-1) (-1)
     (-1) (-1) (-1) (mkListReply None (-1)) None (-1) (-1) (-1)
     EIO 1 (mkTimeval 0 0) epoch.

(** Every call succeeds, on an empty file: reads and writes transfer
    nothing, and the cursor stays at 0. *)
Definition idle : Answers :=
  mk (Some 7) 0 (mkReadReply 0 []) (mkReadReply 0 []) 0 0 0
     0 0 0 (mkListReply (Some []) 0) (Some (mkFileInfo "/db/f" 0 0)) 0 0 0
     0 1 (mkTimeval 0 0) epoch.

(** Every call succeeds, and a listing gives [infos]. *)
Definition listing (infos : list hdfsFileInfo) : Answers :=
  mk (Some 7) 0 (mkReadReply 0 []) (mkReadReply 0 []) 0 0 0
     0 0 0 (mkListReply (Some infos) (Z.of_nat (List.length infos)))
     (Some (mkFileInfo "/db/f" 0 0)) 0 0 0
     0 1 (mkTimeval 0 0) epoch.

End Canned.

(** The name space of a file system held in memory: the set of the paths
    that exist.  A path can be deleted if it exists, and renamed if it
    exists and the new path does not (HDFS does not allow a renaming if the
    target already exists).  The client keeps no open files: the calls on
    files fail. *)
Module Namespace.

Record state : Type := mk {
  paths : gset string;
  last_error : Z
}.

Definition ENOENT : Z := 2.
Definition EEXIST : Z := 17.
Definition EBADF : Z := 9.

Definition failed {X : Type} (x : X) (e : Z) (s : state) : X * state :=
  (x, mk (paths s) e).

Definition children (s : state) (dir : string) : list hdfsFileInfo :=
  (fun p => mkFileInfo p 0 0) <$>
    List.filter (String.prefix (String.append dir "/")) (elements (paths s)).

Definition step (X : Type) (c : call X) (s : state) : X * state :=
  match c in call T return T * state with
  | hdfsOpenFile _ _ => failed None ENOENT s
  | hdfsCloseFile _ => failed (-1) EBADF s
  | hdfsRead _ _ => failed (mkReadReply (-1) []) EBADF s
  | hdfsPread _ _ _ => failed (mkReadReply (-1) []) EBADF s
  | hdfsWrite _ _ _ => failed (-1) EBADF s
  | hdfsTell _ => failed (-1) EBADF s
  | hdfsSeek _ _ => failed (-1) EBADF s
  | hdfsFlush _ => failed (-1) EBADF s
  | hdfsSync _ => failed (-1) EBADF s
  | hdfsExists path =>
      if bool_decide (path ∈ paths s) then (0, s) else (1, s)
  | hdfsListDirectory path =>
      let found := children s path in
      (mkListReply (Some found) (Z.of_nat (List.length found)), s)
  | hdfsGetPathInfo path =>
      if bool_decide (path ∈ paths s) then (Some (mkFileInfo path 0 0), s)
      else failed None ENOENT s
  | hdfsDelete path =>
      if bool_decide (path ∈ paths s)
      then (0, mk (paths s ∖ {[ path ]}) (last_error s))
      else failed (-1) ENOENT s
  | hdfsRename oldPath newPath =>
      if bool_decide (oldPath ∈ paths s) then
        if bool_decide (newPath ∈ paths s) then failed (-1) EEXIST s
        else (0, mk ({[ newPath ]} ∪ (paths s ∖ {[ oldPath ]})) (last_error s))
      else failed (-1) ENOENT s
  | hdfsCreateDirectory path =>
      (0, mk ({[ path ]} ∪ paths s) (last_error s))
  | errno => (last_error s, s)
  | gettid_ => (1, s)
  | gettimeofday => (mkTimeval 0 0, s)
  | localtime_r _ => (Canned.epoch, s)
  end.

Definition client : Client := mkClient state step.

Definition holding (ps : list string) : state := mk (list_to_set ps) 0.

End Namespace.

(** ** Notions of the specification *)

(** A line ends in a newline. *)
Definition ends_in_newline (line : list Byte.byte) : Prop :=
  last line = Some newline.

(** The text with a newline after it, unless it is not empty and ends in
    one already. *)
Definition terminated (text : list Byte.byte) : list Byte.byte :=
  match last text with
  | Some c => if Byte.eqb c newline then text else text ++ [newline]
  | None => text ++ [newline]
  end.

(** The number of newlines at the end of a line. *)
Fixpoint leading_newlines (l : list Byte.byte) : nat :=
  match l with
  | c :: l' => if Byte.eqb c newline then S (leading_newlines l') else O
  | [] => O
  end.

Definition trailing_newlines (line : list Byte.byte) : nat :=
  leading_newlines (rev line).

(** The buffers handed to [hdfsWrite], in order. *)
Fixpoint written (tr : list Event) : list (list Byte.byte) :=
  match tr with
  | [] => []
  | Ev c _ :: tr' =>
      match c with
      | hdfsWrite _ buffer _ => buffer :: written tr'
      | _ => written tr'
      end
  end.

(** The name of a call, without its arguments and its answer. *)
Inductive primitive : Type :=
| p_open | p_close | p_read | p_pread | p_write | p_tell | p_seek | p_flush
| p_sync | p_exists | p_list | p_stat | p_delete | p_rename | p_mkdir
| p_errno | p_gettid | p_clock | p_localtime.

Definition primitive_of {X : Type} (c : call X) : primitive :=
  match c with
  | hdfsOpenFile _ _ => p_open
  | hdfsCloseFile _ => p_close
  | hdfsRead _ _ => p_read
  | hdfsPread _ _ _ => p_pread
  | hdfsWrite _ _ _ => p_write
  | hdfsTell _ => p_tell
  | hdfsSeek _ _ => p_seek
  | hdfsFlush _ => p_flush
  | hdfsSync _ => p_sync
  | hdfsExists _ => p_exists
  | hdfsListDirectory _ => p_list
  | hdfsGetPathInfo _ => p_stat
  | hdfsDelete _ => p_delete
  | hdfsRename _ _ => p_rename
  | hdfsCreateDirectory _ => p_mkdir
  | errno => p_errno
  | gettid_ => p_gettid
  | gettimeofday => p_clock
  | localtime_r _ => p_localtime
  end.

Definition primitives (tr : list Event) : list primitive :=
  (fun e => match e with Ev c _ => primitive_of c end) <$> tr.

(** The handles that were closed, in order. *)
Fixpoint closed (tr : list Event) : list hdfsFile :=
  match tr with
  | [] => []
  | Ev c _ :: tr' =>
      match c with
      | hdfsCloseFile file => file :: closed tr'
      | _ => closed tr'
      end
  end.

(** The positions handed to [hdfsSeek], in order. *)
Fixpoint sought (tr : list Event) : list Z :=
  match tr with
  | [] => []
  | Ev c _ :: tr' =>
      match c with
      | hdfsSeek _ desiredPos => desiredPos :: sought tr'
      | _ => sought tr'
      end
  end.

(** A path name that holds a separator, and what follows its last
    separator. *)
Definition has_separator (name : string) : bool :=
  bool_decide (CString.slash ∈ list_ascii_of_string name).

Fixpoint up_to_separator (l : list ascii) : list ascii :=
  match l with
  | [] => []
  | a :: l' => if Ascii.eqb a CString.slash then [] else a :: up_to_separator l'
  end.

Definition basename (name : string) : string :=
  string_of_list_ascii (rev (up_to_separator (rev (list_ascii_of_string name)))).

(** In state [s] the client answers [x] to the call [c] and moves to
    [s']. *)
Definition answers (cl : Client) {X : Type} (c : call X) (s : St cl) (x : X)
    (s' : St cl) : Prop :=
  answer cl c s = (x, s').

(** The method ends by returning an [IOError] built from [context]. *)
Definition returns_IOError {S : Type} (r : Run Status S) (context : string) : Prop :=
  exists err_number, outcome r = Normal (StIOError context err_number).

(** The answers that [feof] gets from state [s]: the position [pos] from
    [hdfsTell] and the file information [info] from [hdfsGetPathInfo], asked
    in the order that the compilation fixes. *)
Definition feof_answers (cc : Compilation) (cl : Client) (f : HdfsReadableFile.t)
    (s : St cl) (pos : Z) (info : option hdfsFileInfo) (s' : St cl) : Prop :=
  let tell := hdfsTell (HdfsReadableFile.hfile_ f) in
  let stat := hdfsGetPathInfo (HdfsReadableFile.filename_ f) in
  exists s1 : St cl,
    if left_operand_first cc
    then answers cl tell s pos s1 /\ answers cl stat s1 info s'
    else answers cl stat s info s1 /\ answers cl tell s1 pos s'.

Definition feof_calls (cc : Compilation) : list primitive :=
  if left_operand_first cc then [p_tell; p_stat] else [p_stat; p_tell].

(** [Close()] followed by the destructor, on the object that [Close]
    leaves; the result is the status of [Close]. *)
Definition close_and_destroy (f : HdfsWritableFile.t) : Prog Status :=
  closed_file <- HdfsWritableFile.Close f ;;
  HdfsWritableFile.delete (snd closed_file) ;;;
  Ret (fst closed_file).

(** The text that a pass leaves in the buffer, before the newline: the
    header and the message, cut to one byte less than the buffer. *)
Definition kept (iter : Z) (head message : list Byte.byte) : list Byte.byte :=
  take (Z.to_nat (HdfsLogger.bufsize_of iter - 1)) (head ++ message)%list.

(** ** Sequences of calls that a user of the file makes *)

(** [Close()] twice on the same object; the results are the two
    statuses. *)
Definition close_twice (f : HdfsWritableFile.t) : Prog (Status * Status) :=
  first <- HdfsWritableFile.Close f ;;
  second <- HdfsWritableFile.Close (snd first) ;;
  Ret (fst first, fst second).

(** [NewSequentialFile] followed by the deletion of the object that it
    returns. *)
Definition open_and_destroy_reader (fname : string) : Prog Status :=
  opened <- HdfsEnv.NewSequentialFile fname ;;
  match snd opened with
  | Some f => HdfsReadableFile.delete f ;;; Ret (fst opened)
  | None => Ret (fst opened)
  end.

(** [NewLogger], one call of [Logv] on the logger that it returns, and the
    deletion of the logger. *)
Definition log_once (cc : Compilation) (fname : string)
    (message : list Byte.byte) : Prog Status :=
  made <- HdfsEnv.NewLogger cc fname ;;
  match snd made with
  | Some lg =>
      HdfsLogger.Logv cc lg message ;;;
      HdfsLogger.delete lg ;;;
      Ret (fst made)
  | None => Ret (fst made)
  end.

(** [DeleteFile] followed by [FileExists] on the same name. *)
Definition delete_then_check (fname : string) : Prog (Status * bool) :=
  deleted <- HdfsEnv.DeleteFile fname ;;
  found <- HdfsEnv.FileExists fname ;;
  Ret (deleted, found).

(** The handles handed to [hdfsWrite], in order. *)
Fixpoint written_to (tr : list Event) : list hdfsFile :=
  match tr with
  | [] => []
  | Ev c _ :: tr' =>
      match c with
      | hdfsWrite file _ _ => file :: written_to tr'
      | _ => written_to tr'
      end
  end.

(** ** More reference answers *)

(** A file of 100 bytes on which every read stops after 3 bytes, the
    cursor standing at 3. *)
Definition stalled : Canned.Answers :=
  Canned.mk (Some 7) 0
    (mkReadReply 3 [Byte.x61; Byte.x62; Byte.x63])
    (mkReadReply 3 [Byte.x61; Byte.x62; Byte.x63]) 3 3 0
    0 0 0 (mkListReply (Some []) 0) (Some (mkFileInfo "/db/f" 100 0)) 0 0 0
    Canned.EIO 1 (mkTimeval 0 0) Canned.epoch.

(** A file that was removed while it is open: reads give nothing and the
    path has no information. *)
Definition vanished : Canned.Answers :=
  Canned.mk (Some 7) 0 (mkReadReply 0 []) (mkReadReply 0 []) 0 0 0
    0 0 1 (mkListReply None 0) None (-1) (-1) 0
    Canned.EIO 1 (mkTimeval 0 0) Canned.epoch.

(** A file on which every write takes all of 5 bytes. *)
Definition accepting5 : Canned.Answers :=
  Canned.mk (Some 7) 0 (mkReadReply 0 []) (mkReadReply 0 []) 5 0 0
    0 0 0 (mkListReply (Some []) 0) (Some (mkFileInfo "/db/f" 0 0)) 0 0 0
    Canned.EIO 1 (mkTimeval 0 0) Canned.epoch.

(** The same name space behind a file system that refuses every deletion:
    [hdfsDelete] fails and leaves the paths as they are; every other call is
    answered as by [Namespace]. *)
Module Protected.

Definition EACCES : Z := 13.

Definition step (X : Type) (c : call X) (s : Namespace.state)
  : X * Namespace.state :=
  match c in call T return T * Namespace.state with
  | hdfsDelete _ => Namespace.failed (-1) EACCES s
  | other => Namespace.step _ other s
  end.

Definition client : Client := mkClient Namespace.state step.

End Protected.

(** * Properties *)

(** ** Running programs *)

Lemma run_call {A X : Type} (cl : Client) (c : call X) (k : X -> Prog A)
    (s s' : St cl) (x : X) :
  answers cl c s x s' ->
  run cl (Vis c k) s = logged (Ev c x) (run cl (k x) s').
Proof. unfold answers. intros H. cbn [run]. rewrite H. reflexivity. Qed.

Lemma run_bind {A B : Type} (cl : Client) (p : Prog A) (f : A -> Prog B)
    (s : St cl) :
  run cl (bind p f) s =
    match outcome (run cl p s) with
    | Normal a =>
        let r := run cl (f a) (final (run cl p s)) in
        mkRun (outcome r) (final r) (trace (run cl p s) ++ trace r)
    | Failed why => mkRun (Failed why) (final (run cl p s)) (trace (run cl p s))
    end.
Proof.
  revert s. induction p as [a | why | X c k IH]; intros s; cbn [bind run].
  - simpl. destruct (run cl (f a) s); reflexivity.
  - reflexivity.
  - destruct (answer cl c s) as [x s']. rewrite IH.
    destruct (run cl (k x) s') as [[a | why] s'' tr]; reflexivity.
Qed.

Lemma run_Ret {A : Type} (cl : Client) (a : A) (s : St cl) :
  run cl (Ret a) s = mkRun (Normal a) s [].
Proof. reflexivity. Qed.

Lemma run_Stop {A : Type} (cl : Client) (why : Failure) (s : St cl) :
  run cl (Stop why : Prog A) s = mkRun (Failed why) s [].
Proof. reflexivity. Qed.

(** Steps through the calls of a program whose answers are among the
    hypotheses. *)
Ltac answered :=
  repeat match goal with
         | H : answers ?cl ?c ?s _ _ |- context [run ?cl (Vis ?c _) ?s] =>
             rewrite (run_call cl c _ s _ _ H)
         end.

Ltac settle := rewrite ?run_Ret, ?run_Stop; cbn [logged outcome final trace].

Ltac unfold_run := cbn [bind do IOError throw]; answered; settle.

(** Steps over a call whose answer is not named. *)
Ltac any_answer x :=
  match goal with
  | |- context [run ?cl (Vis ?c _) ?s] =>
      let s' := fresh "s" in
      let E := fresh "E" in
      destruct (answer cl c s) as [x s'] eqn:E;
      rewrite (run_call cl c _ s s' x E);
      settle
  end.

Local Open Scope list_scope.
Local Open Scope Z_scope.

(** ** The sequential Read *)

Lemma to_uint64_in_range (z : Z) : 0 <= z < 2 ^ 64 -> to_uint64 z = z.
Proof. intros Hz. unfold to_uint64. apply Z.mod_small. exact Hz. Qed.

(** X2.  A read that fills the request makes no other call: it returns OK
    with the bytes, and the size of the file is not asked for. *)
Lemma Read_full (cc : Compilation) (cl : Client) (s s1 : St cl)
    (f : HdfsReadableFile.t) (n : Z) (reply : ReadReply) :
  let h := HdfsReadableFile.hfile_ f in
  n <= rd_count reply < 2 ^ 64 ->
  0 <= n ->
  answers cl (hdfsRead h (to_tSize n)) s reply s1 ->
  run cl (HdfsReadableFile.Read cc f n) s =
    mkRun (Normal (OK, mkSlice (rd_buffer reply) (rd_count reply))) s1
          [Ev (hdfsRead h (to_tSize n)) reply].
Proof.
  intros h Hr Hn Hread. unfold HdfsReadableFile.Read. fold h. unfold_run.
  rewrite to_uint64_in_range by lia.
  destruct (Z.ltb_spec (rd_count reply) n) as [Hlt | Hge]; [lia |].
  settle. reflexivity.
Qed.

(** X1.  A read that transfers [count] bytes, [0 <= count < n], asks for the
    position and for the size of the file.  It returns OK with the [count]
    bytes when the two are equal and an IOError when they differ. *)
Lemma Read_short (cc : Compilation) (cl : Client) (s s1 s2 : St cl)
    (f : HdfsReadableFile.t) (n pos : Z) (reply : ReadReply)
    (info : hdfsFileInfo) :
  let h := HdfsReadableFile.hfile_ f in
  let name := HdfsReadableFile.filename_ f in
  0 <= rd_count reply < n ->
  n < 2 ^ 64 ->
  answers cl (hdfsRead h (to_tSize n)) s reply s1 ->
  feof_answers cc cl f s1 pos (Some info) s2 ->
  let r := run cl (HdfsReadableFile.Read cc f n) s in
  let result := mkSlice (rd_buffer reply) (rd_count reply) in
  primitives (remote (trace r)) = p_read :: feof_calls cc /\
  (pos = mSize info -> outcome r = Normal (OK, result)) /\
  (pos <> mSize info ->
     exists err_number, outcome r = Normal (StIOError name err_number, result)).
Proof.
  intros h name Hr Hn Hread (s' & Hfeof) r result. subst r.
  unfold HdfsReadableFile.Read. fold h. unfold_run.
  rewrite to_uint64_in_range by lia. fold result.
  destruct (Z.ltb_spec (rd_count reply) n) as [_ | Hge]; [| lia].
  unfold HdfsReadableFile.feof, HdfsReadableFile.fileSize, feof_calls.
  fold h. fold name.
  destruct (left_operand_first cc); destruct Hfeof as [H1 H2];
    unfold_run; unfold_run;
    (destruct (Z.eqb_spec pos (mSize info)) as [Heq | Hne];
     [settle; cbn; split; [reflexivity |]; split; [reflexivity | congruence]
     |unfold_run; any_answer e; cbn; split; [reflexivity |];
      split; [congruence | eauto]]).
Qed.

(** X3.  When the file information is not to be had, a short read throws
    [HdfsFatalException] instead of returning a status. *)
Lemma Read_short_of_unknown_file (cc : Compilation) (cl : Client)
    (s s1 s2 : St cl) (f : HdfsReadableFile.t) (n pos : Z) (reply : ReadReply) :
  let h := HdfsReadableFile.hfile_ f in
  let name := HdfsReadableFile.filename_ f in
  0 <= rd_count reply < n ->
  n < 2 ^ 64 ->
  answers cl (hdfsRead h (to_tSize n)) s reply s1 ->
  feof_answers cc cl f s1 pos None s2 ->
  outcome (run cl (HdfsReadableFile.Read cc f n) s) =
    Failed (Fatal (String.append "fileSize on unknown file " name)).
Proof.
  intros h name Hr Hn Hread (s' & Hfeof).
  unfold HdfsReadableFile.Read. fold h. unfold_run.
  rewrite to_uint64_in_range by lia.
  destruct (Z.ltb_spec (rd_count reply) n) as [_ | Hge]; [| lia].
  unfold HdfsReadableFile.feof, HdfsReadableFile.fileSize.
  fold h. fold name.
  destruct (left_operand_first cc); destruct Hfeof as [H1 H2];
    unfold_run; unfold_run; reflexivity.
Qed.

(** C1, where the code departs from it.  When [hdfsRead] fails, that is,
    returns -1, no byte has been transferred, but the count, stored in a
    [size_t], is 2^64 - 1 and so never below [n]: [Read] makes no other
    call, and returns OK with a result of 2^64 - 1 bytes. *)
Theorem Read_takes_failed_read_for_full (cc : Compilation) (cl : Client)
    (s s1 : St cl) (f : HdfsReadableFile.t) (n : Z) (reply : ReadReply) :
  let h := HdfsReadableFile.hfile_ f in
  0 <= n < 2 ^ 64 ->
  rd_count reply = -1 ->
  answers cl (hdfsRead h (to_tSize n)) s reply s1 ->
  run cl (HdfsReadableFile.Read cc f n) s =
    mkRun (Normal (OK, mkSlice (rd_buffer reply) (2 ^ 64 - 1))) s1
          [Ev (hdfsRead h (to_tSize n)) reply].
Proof.
  intros h Hn Hr Hread. unfold HdfsReadableFile.Read. fold h. unfold_run.
  rewrite Hr. change (to_uint64 (-1)) with (2 ^ 64 - 1).
  destruct (Z.ltb_spec (2 ^ 64 - 1) n) as [Hlt | Hge]; [lia |].
  settle. reflexivity.
Qed.

Lemma Read_takes_failed_read_for_full_witness :
  run (Canned.client Canned.failing)
      (HdfsReadableFile.Read (mkCompilation true true)
         (HdfsReadableFile.mk "/db/000003.log" (Some 7)) 10) tt =
    mkRun (Normal (OK, mkSlice [] 18446744073709551615)) tt
          [Ev (hdfsRead (Some 7) 10) (mkReadReply (-1) [])].
Proof.
  apply (Read_takes_failed_read_for_full (mkCompilation true true)
           (Canned.client Canned.failing) tt tt
           (HdfsReadableFile.mk "/db/000003.log" (Some 7)) 10
           (mkReadReply (-1) [])).
  - lia.
  - reflexivity.
  - reflexivity.
Defined.

(** ** The positioned Read *)

(** C7.  The positioned [Read] makes one remote call, [hdfsPread], and no
    query of the size.  A negative count gives an IOError and a result of
    zero bytes; a count that is not negative, whether or not it is less than
    [n], gives OK and a result of exactly that many bytes. *)
Theorem Read_at_maps_negative_count_to_IOError (cl : Client) (s s1 : St cl)
    (f : HdfsReadableFile.t) (offset n : Z) (reply : ReadReply) :
  let h := HdfsReadableFile.hfile_ f in
  answers cl (hdfsPread h (to_tOffset offset) (to_tSize n)) s reply s1 ->
  let r := run cl (HdfsReadableFile.Read_at f offset n) s in
  remote (trace r) =
    [Ev (hdfsPread h (to_tOffset offset) (to_tSize n)) reply] /\
  (rd_count reply < 0 ->
     exists err_number,
       outcome r =
         Normal (StIOError (HdfsReadableFile.filename_ f) err_number,
                 mkSlice (rd_buffer reply) 0)) /\
  (0 <= rd_count reply ->
     outcome r = Normal (OK, mkSlice (rd_buffer reply) (rd_count reply))).
Proof.
  intros h Hread. unfold HdfsReadableFile.Read_at. fold h. unfold_run.
  destruct (Z.ltb_spec (rd_count reply) 0) as [Hneg | Hpos].
  - unfold_run. any_answer e. cbn.
    split; [reflexivity |]. split; [eauto | lia].
  - cbn. split; [reflexivity |]. split; [lia | reflexivity].
Qed.

Lemma Read_at_maps_negative_count_to_IOError_witness :
  let f := HdfsReadableFile.mk "/db/000005.sst" (Some 7) in
  (exists err_number,
     outcome (run (Canned.client Canned.failing)
                (HdfsReadableFile.Read_at f 4096 100) tt)
       = Normal (StIOError "/db/000005.sst" err_number, mkSlice [] 0)) /\
  outcome (run (Canned.client Canned.idle)
             (HdfsReadableFile.Read_at f 4096 100) tt)
    = Normal (OK, mkSlice [] 0).
Proof.
  intros f. split.
  - apply (Read_at_maps_negative_count_to_IOError
             (Canned.client Canned.failing) tt tt f 4096 100
             (mkReadReply (-1) []) eq_refl).
    cbn. lia.
  - apply (Read_at_maps_negative_count_to_IOError
             (Canned.client Canned.idle) tt tt f 4096 100
             (mkReadReply 0 []) eq_refl).
    cbn. lia.
Defined.

(** ** Skip *)

Lemma to_signed_mod (w z : Z) : 0 < w -> to_signed w (z mod 2 ^ w) = to_signed w z.
Proof.
  intros Hw. unfold to_signed.
  rewrite Zplus_mod_idemp_l. reflexivity.
Qed.

Lemma to_tOffset_in_range (z : Z) : in_tOffset z -> to_tOffset z = z.
Proof.
  unfold in_tOffset, to_tOffset, to_signed. intros Hz.
  change (2 ^ (64 - 1)) with 9223372036854775808 in *.
  change (2 ^ 63) with 9223372036854775808 in *.
  change (2 ^ 64) with 18446744073709551616 in *.
  rewrite Z.mod_small; lia.
Qed.

(** The offset that [Skip] computes in [uint64_t] and stores in a
    [tOffset] is the sum, reduced to a [tOffset]. *)
Lemma Skip_newoffset (current n : Z) :
  to_tOffset (to_uint64 (to_uint64 current + n)) = to_tOffset (current + n).
Proof.
  unfold to_tOffset, to_uint64.
  rewrite (to_signed_mod 64) by lia.
  unfold to_signed. rewrite <- Zplus_assoc, Zplus_mod_idemp_l.
  rewrite Zplus_assoc. reflexivity.
Qed.

(** C6, as the code has it.  [Skip(n)] asks [hdfsTell] for the current
    offset and returns an IOError, without seeking, when the answer is
    negative.  Otherwise it seeks to the sum of the offset and [n] reduced
    to the 64-bit signed type of offsets, which is the sum itself whenever
    that is below 2^63, and returns an IOError when [hdfsSeek] answers a
    negative value and OK when it does not.  For [n = 0] the two calls are
    still made, the position sought is the current offset, and the result
    is OK when both calls succeed. *)
Theorem Skip_seeks_to_wrapped_sum (cl : Client) (s s1 s2 : St cl)
    (f : HdfsReadableFile.t) (n current val : Z) :
  let h := HdfsReadableFile.hfile_ f in
  let name := HdfsReadableFile.filename_ f in
  let target := to_tOffset (current + n) in
  0 <= n < 2 ^ 64 ->
  in_tOffset current ->
  answers cl (hdfsTell h) s current s1 ->
  answers cl (hdfsSeek h target) s1 val s2 ->
  let r := run cl (HdfsReadableFile.Skip f n) s in
  (current < 0 ->
     remote (trace r) = [Ev (hdfsTell h) current] /\ returns_IOError r name) /\
  (0 <= current ->
     remote (trace r) = [Ev (hdfsTell h) current; Ev (hdfsSeek h target) val] /\
     (val < 0 -> returns_IOError r name) /\
     (0 <= val -> outcome r = Normal OK) /\
     (current + n < 2 ^ 63 -> target = current + n) /\
     (n = 0 -> target = current)).
Proof.
  intros h name target Hn Hcur Htell Hseek.
  unfold HdfsReadableFile.Skip, returns_IOError. fold h. fold name.
  unfold_run.
  destruct (Z.ltb_spec current 0) as [Hneg | Hpos].
  - split; [| lia]. intros _. unfold_run. any_answer e. cbn. eauto.
  - split; [lia |]. intros _. cbn zeta. rewrite Skip_newoffset. fold target.
    unfold_run.
    assert (Hsum : current + n < 2 ^ 63 -> target = current + n).
    { intros Hlt. apply to_tOffset_in_range. unfold in_tOffset in *.
      change (2 ^ 63) with 9223372036854775808 in *. lia. }
    assert (Hzero : n = 0 -> target = current).
    { intros ->. unfold target. rewrite Z.add_0_r.
      apply to_tOffset_in_range. exact Hcur. }
    destruct (Z.ltb_spec val 0) as [Hv | Hv].
    + unfold_run. any_answer e. cbn.
      split; [reflexivity |]. split; [eauto |]. split; [lia |]. split; assumption.
    + settle. cbn.
      split; [reflexivity |]. split; [lia |]. split; [reflexivity |]. split; assumption.
Qed.

Lemma Skip_seeks_to_wrapped_sum_witness :
  let f := HdfsReadableFile.mk "/db/MANIFEST-000002" (Some 7) in
  let r := run (Canned.client Canned.idle) (HdfsReadableFile.Skip f 10) tt in
  remote (trace r) = [Ev (hdfsTell (Some 7)) 0; Ev (hdfsSeek (Some 7) 10) 0] /\
  outcome r = Normal OK.
Proof.
  intros f r.
  destruct (Skip_seeks_to_wrapped_sum (Canned.client Canned.idle) tt tt tt f 10 0 0)
    as [_ Hpos].
  - vm_compute. split; [discriminate | reflexivity].
  - vm_compute. split; [discriminate | reflexivity].
  - reflexivity.
  - reflexivity.
  - destruct Hpos as (Htr & _ & Hok & _); [lia |].
    split; [exact Htr | apply Hok; lia].
Defined.

(** What C6 says beyond that does not hold.  [Skip(0)] does not succeed
    whatever happens: it fails when [hdfsTell] does.  And the position
    sought is not the sum for every [n]: at offset 0, [Skip(2^63)] seeks
    to [-2^63]. *)
Lemma Skip_zero_can_fail_and_sum_wraps :
  let f := HdfsReadableFile.mk "/db/MANIFEST-000002" (Some 7) in
  ~ (forall (cl : Client) (s : St cl),
       outcome (run cl (HdfsReadableFile.Skip f 0) s) = Normal OK) /\
  ~ (forall (cl : Client) (s s1 : St cl) (n current : Z),
       0 <= n < 2 ^ 64 ->
       answers cl (hdfsTell (HdfsReadableFile.hfile_ f)) s current s1 ->
       0 <= current ->
       sought (trace (run cl (HdfsReadableFile.Skip f n) s)) = [current + n]).
Proof.
  intros f. split.
  - intros H. specialize (H (Canned.client Canned.failing) tt).
    vm_compute in H. discriminate H.
  - intros H.
    specialize (H (Canned.client Canned.idle) tt tt (2 ^ 63) 0).
    assert (Hn : 0 <= 2 ^ 63 < 2 ^ 64) by lia.
    specialize (H Hn eq_refl (Z.le_refl 0)).
    vm_compute in H. discriminate H.
Qed.

(** ** Close *)

(** X6.  When the remote close succeeds, [Close] clears the handle and the
    destructor does not close it again: the handle is closed once. *)
Lemma Close_releases_once (cl : Client) (s s1 : St cl)
    (f : HdfsWritableFile.t) :
  let h := HdfsWritableFile.hfile_ f in
  answers cl (hdfsCloseFile h) s 0 s1 ->
  outcome (run cl (HdfsWritableFile.Close f) s)
    = Normal (OK, HdfsWritableFile.mk (HdfsWritableFile.filename_ f) None) /\
  closed (trace (run cl (close_and_destroy f) s)) = [h].
Proof.
  intros h Hclose. unfold close_and_destroy, HdfsWritableFile.Close.
  fold h. unfold_run. cbn. split; reflexivity.
Qed.

(** C3, where the code departs from it.  When the remote close fails,
    [Close] returns an IOError and leaves the handle in the object, and the
    destructor then closes the same handle a second time. *)
Theorem Close_failure_keeps_handle (cl : Client) (s s1 s2 s3 : St cl)
    (f : HdfsWritableFile.t) (handle r e r' : Z) :
  let h := HdfsWritableFile.hfile_ f in
  h = Some handle ->
  r <> 0 ->
  answers cl (hdfsCloseFile h) s r s1 ->
  answers cl errno s1 e s2 ->
  answers cl (hdfsCloseFile h) s2 r' s3 ->
  outcome (run cl (HdfsWritableFile.Close f) s)
    = Normal (StIOError (HdfsWritableFile.filename_ f) e, f) /\
  outcome (run cl (close_and_destroy f) s)
    = Normal (StIOError (HdfsWritableFile.filename_ f) e) /\
  closed (trace (run cl (close_and_destroy f) s)) = [Some handle; Some handle].
Proof.
  intros h Hh Hr Hclose Herrno Hagain.
  unfold close_and_destroy, HdfsWritableFile.Close. fold h. unfold_run.
  destruct (Z.eqb_spec r 0) as [E | _]; [contradiction |].
  cbn [negb]. unfold_run. split; [reflexivity |].
  cbn [snd fst]. unfold HdfsWritableFile.delete. fold h. rewrite Hh in *.
  unfold_run. cbn. split; reflexivity.
Qed.

Lemma Close_failure_keeps_handle_witness :
  let f := HdfsWritableFile.mk "/db/000003.log" (Some 7) in
  outcome (run (Canned.client Canned.failing) (HdfsWritableFile.Close f) tt)
    = Normal (StIOError "/db/000003.log" Canned.EIO, f) /\
  outcome (run (Canned.client Canned.failing) (close_and_destroy f) tt)
    = Normal (StIOError "/db/000003.log" Canned.EIO) /\
  closed (trace (run (Canned.client Canned.failing) (close_and_destroy f) tt))
    = [Some 7; Some 7].
Proof.
  intros f.
  apply (Close_failure_keeps_handle (Canned.client Canned.failing) tt tt tt tt
           f 7 (-1) Canned.EIO (-1)).
  - reflexivity.
  - lia.
  - reflexivity.
  - reflexivity.
  - reflexivity.
Defined.

(** ** Sync and Flush *)

(** C8.  [Sync] calls [hdfsFlush] and then [hdfsSync] on the handle, in
    that order.  When [hdfsFlush] fails (returns -1) it returns an IOError
    and [hdfsSync] is not called; otherwise [hdfsSync] is called, and the
    result is an IOError when it fails and OK when it does not.  [Flush]
    makes no call at all and returns OK. *)
Theorem Sync_flushes_then_syncs (cl : Client) (s s1 s2 : St cl)
    (f : HdfsWritableFile.t) (r1 r2 : Z) :
  let h := HdfsWritableFile.hfile_ f in
  let name := HdfsWritableFile.filename_ f in
  answers cl (hdfsFlush h) s r1 s1 ->
  answers cl (hdfsSync h) s1 r2 s2 ->
  let r := run cl (HdfsWritableFile.Sync f) s in
  (r1 = -1 ->
     remote (trace r) = [Ev (hdfsFlush h) r1] /\ returns_IOError r name) /\
  (r1 <> -1 ->
     remote (trace r) = [Ev (hdfsFlush h) r1; Ev (hdfsSync h) r2] /\
     (r2 = -1 -> returns_IOError r name) /\
     (r2 <> -1 -> outcome r = Normal OK)) /\
  run cl (HdfsWritableFile.Flush f) s = mkRun (Normal OK) s [].
Proof.
  intros h name Hflush Hsync. unfold HdfsWritableFile.Sync, returns_IOError.
  fold h. fold name. unfold_run.
  destruct (Z.eqb_spec r1 (-1)) as [E1 | E1].
  - split; [| split]; [| congruence | reflexivity].
    intros _. destruct (answer cl errno s1) as [e s'] eqn:He.
    rewrite (run_call cl errno _ s1 s' e He). cbn. eauto.
  - split; [congruence |]. split; [| reflexivity]. intros _.
    unfold_run.
    destruct (Z.eqb_spec r2 (-1)) as [E2 | E2].
    + destruct (answer cl errno s2) as [e s'] eqn:He.
      rewrite (run_call cl errno _ s2 s' e He). cbn.
      split; [reflexivity |]. split; [eauto | congruence].
    + cbn. split; [reflexivity |]. split; [congruence | reflexivity].
Qed.

Lemma Sync_flushes_then_syncs_witness :
  let f := HdfsWritableFile.mk "/db/000003.log" (Some 7) in
  returns_IOError
    (run (Canned.client Canned.failing) (HdfsWritableFile.Sync f) tt)
    "/db/000003.log" /\
  remote (trace (run (Canned.client Canned.idle) (HdfsWritableFile.Sync f) tt))
    = [Ev (hdfsFlush (Some 7)) 0; Ev (hdfsSync (Some 7)) 0] /\
  outcome (run (Canned.client Canned.idle) (HdfsWritableFile.Sync f) tt)
    = Normal OK.
Proof.
  intros f.
  pose proof (Sync_flushes_then_syncs (Canned.client Canned.failing) tt tt tt f
                (-1) (-1) eq_refl eq_refl) as (Hfail & _ & _).
  pose proof (Sync_flushes_then_syncs (Canned.client Canned.idle) tt tt tt f
                0 0 eq_refl eq_refl) as (_ & Hok & _).
  destruct (Hfail eq_refl) as [_ Hio].
  destruct Hok as (Htr & _ & Hout); [lia |].
  split; [exact Hio | split; [exact Htr | apply Hout; lia]].
Defined.

(** ** Character buffers *)

Section Buffers.

Implicit Types (w cs : list Byte.byte) (junk : Mem.buffer).

Lemma capacity_app w junk :
  Mem.capacity ((Some <$> w) ++ junk) = Z.of_nat (List.length w) + Z.of_nat (List.length junk).
Proof.
  unfold Mem.capacity. rewrite length_app, length_fmap. lia.
Qed.

(** A store right after the written part of a buffer that has room
    left. *)
Lemma store_at_end w (c : Byte.byte) (cell : option Byte.byte) junk :
  Mem.store ((Some <$> w) ++ cell :: junk) (Z.of_nat (List.length w)) c
    = Some ((Some <$> (w ++ [c])) ++ junk).
Proof.
  unfold Mem.store. rewrite capacity_app. cbn [List.length].
  rewrite (proj2 (Z.leb_le _ _)) by lia.
  rewrite (proj2 (Z.ltb_lt _ _)) by lia.
  cbn [andb]. f_equal. rewrite Nat2Z.id.
  rewrite fmap_app, <- app_assoc. cbn [fmap list_fmap app].
  rewrite insert_app_r_alt by (rewrite length_fmap; lia).
  rewrite length_fmap, Nat.sub_diag. reflexivity.
Qed.

Lemma store_all_at_end cs : forall w junk,
  (List.length cs <= List.length junk)%nat ->
  Mem.store_all ((Some <$> w) ++ junk) (Z.of_nat (List.length w)) cs
    = Some ((Some <$> (w ++ cs)) ++ drop (List.length cs) junk).
Proof.
  induction cs as [| c cs IH]; intros w junk Hlen; cbn [Mem.store_all].
  - rewrite app_nil_r, drop_0. reflexivity.
  - destruct junk as [| cell junk]; [cbn in Hlen; lia |].
    rewrite store_at_end. cbn [mbind option_bind].
    replace (Z.of_nat (List.length w) + 1) with (Z.of_nat (List.length (w ++ [c])))
      by (rewrite length_app; cbn; lia).
    rewrite IH by (cbn in Hlen; lia).
    rewrite <- app_assoc. reflexivity.
Qed.

Lemma load_written (a : list Byte.byte) (c : Byte.byte) w junk :
  Mem.load ((Some <$> (a ++ c :: w)) ++ junk) (Z.of_nat (List.length a)) = Some c.
Proof.
  unfold Mem.load. rewrite (proj2 (Z.leb_le _ _)) by lia.
  rewrite Nat2Z.id, fmap_app, <- app_assoc. cbn [fmap list_fmap app].
  rewrite list_lookup_middle by (rewrite length_fmap; reflexivity).
  reflexivity.
Qed.

Lemma load_range_written w : forall (a : list Byte.byte) junk,
  Mem.load_range ((Some <$> (a ++ w)) ++ junk) (Z.of_nat (List.length a)) (List.length w)
    = Some w.
Proof.
  induction w as [| c w IH]; intros a junk; cbn [Mem.load_range List.length];
    [reflexivity |].
  rewrite load_written. cbn [mbind option_bind].
  replace (Z.of_nat (List.length a) + 1) with (Z.of_nat (List.length (a ++ [c])))
    by (rewrite length_app; cbn; lia).
  replace (a ++ c :: w)%list with ((a ++ [c]) ++ w)%list
    by (rewrite <- app_assoc; reflexivity).
  rewrite IH. reflexivity.
Qed.

(** [snprintf] at the end of the written part, with a size that is not
    zero and does not pass the end of the buffer: it stores as much of
    the text as fits before a NUL. *)
Lemma snprintf_at_end w junk (size : Z) (text : list Byte.byte) :
  0 < size <= Z.of_nat (List.length junk) ->
  exists junk',
    Mem.snprintf ((Some <$> w) ++ junk) (Z.of_nat (List.length w)) size text
      = (Some ((Some <$> (w ++ take (Z.to_nat (size - 1)) text ++ [Byte.x00])) ++ junk'),
         Z.of_nat (List.length text)) /\
    (List.length (take (Z.to_nat (size - 1)) text) + 1 + List.length junk'
       = List.length junk)%nat.
Proof.
  intros Hsize. unfold Mem.snprintf.
  destruct (Z.eqb_spec size 0) as [E | _]; [lia |].
  set (cs := (take (Z.to_nat (size - 1)) text ++ [Byte.x00])%list).
  assert (Hcs : (List.length cs <= List.length junk)%nat).
  { subst cs. rewrite length_app, length_take. cbn. lia. }
  exists (drop (List.length cs) junk).
  rewrite store_all_at_end by exact Hcs.
  split; [reflexivity |].
  rewrite length_drop. subst cs. rewrite length_app in *. cbn in *. lia.
Qed.

End Buffers.

(** ** Logv *)

Lemma bufsize_of_bounds (iter : Z) : 1 < HdfsLogger.bufsize_of iter < 2 ^ 64.
Proof. unfold HdfsLogger.bufsize_of. destruct (iter =? 0); lia. Qed.

Lemma terminated_snoc (t : list Byte.byte) (c : Byte.byte) :
  terminated (t ++ [c]) =
    if Byte.eqb c newline then t ++ [c] else (t ++ [c]) ++ [newline].
Proof. unfold terminated. rewrite last_snoc. reflexivity. Qed.

(** What a pass computes.  Every store falls inside the buffer.  The pass
    ends in [continue] when it is the first one and the header and the
    message, with the closing NUL, do not fit the buffer; otherwise it
    leaves [p] after the text that was kept, which the buffer holds from its
    start, followed by a NUL. *)
Lemma format_spec (iter : Z) (head message : list Byte.byte) :
  let cap := HdfsLogger.bufsize_of iter in
  let t := kept iter head message in
  if (cap <=? Z.of_nat (List.length (head ++ message))) && (iter =? 0) then
    HdfsLogger.format iter head message = Ret None
  else
    exists junk : Mem.buffer,
      HdfsLogger.format iter head message =
        Ret (Some ((Some <$> (t ++ [Byte.x00])) ++ junk, Z.of_nat (List.length t))) /\
      Z.of_nat (List.length t) + 1 + Z.of_nat (List.length junk) = cap.
Proof.
  intros cap t. unfold HdfsLogger.format, kept in *. fold cap in t |- *.
  pose proof (bufsize_of_bounds iter) as Hcap. fold cap in Hcap.
  set (hl := List.length head). set (ml := List.length message).
  assert (Hlen : List.length (head ++ message) = (hl + ml)%nat) by apply length_app.
  rewrite Hlen.
  (* the header *)
  rewrite Z.sub_0_r, (to_uint64_in_range cap) by lia.
  destruct (snprintf_at_end [] (Mem.alloc cap) cap head) as (junk1 & Hs1 & Hj1).
  { unfold Mem.alloc. rewrite repeat_length. lia. }
  change (Z.of_nat (List.length (@nil Byte.byte))) with 0 in Hs1.
  cbn [fmap list_fmap app] in Hs1. rewrite Hs1.
  cbn [mem bind]. rewrite Z.add_0_l. fold hl.
  assert (Halloc : List.length (Mem.alloc cap) = Z.to_nat cap)
    by (unfold Mem.alloc; apply repeat_length).
  rewrite Halloc in Hj1.
  destruct (Z.ltb_spec (Z.of_nat hl) cap) as [Hfit | Hover].
  - (* the message *)
    rewrite (take_ge head) in * by (fold hl; lia). fold hl in Hj1.
    rewrite (to_uint64_in_range (cap - Z.of_nat hl)) by lia.
    rewrite fmap_app, <- app_assoc. cbn [fmap list_fmap app].
    destruct (snprintf_at_end head (Some Byte.x00 :: junk1) (cap - Z.of_nat hl) message)
      as (junk2 & Hs2 & Hj2).
    { cbn [List.length]. lia. }
    fold hl in Hs2. rewrite Hs2. cbn [mem bind]. fold ml.
    cbn [List.length] in Hj2.
    assert (Ht : t = head ++ take (Z.to_nat (cap - Z.of_nat hl - 1)) message).
    { subst t. rewrite take_app. rewrite (take_ge head) by (fold hl; lia).
      fold hl. f_equal. f_equal. lia. }
    destruct (Z.geb_spec (Z.of_nat hl + Z.of_nat ml) cap) as [Hge | Hlt].
    + rewrite (proj2 (Z.leb_le cap (Z.of_nat (hl + ml)))) by lia. cbn [andb].
      destruct (iter =? 0); [reflexivity |].
      exists junk2. rewrite Ht, <- app_assoc.
      assert (Hkept : Z.of_nat (List.length
                (head ++ take (Z.to_nat (cap - Z.of_nat hl - 1)) message)) = cap - 1).
      { rewrite length_app, length_take. fold hl ml. lia. }
      rewrite Hkept. split; [reflexivity |].
      rewrite length_take in Hj2. fold ml in Hj2. lia.
    + rewrite (proj2 (Z.leb_gt cap (Z.of_nat (hl + ml)))) by lia. cbn [andb].
      exists junk2. rewrite Ht, <- app_assoc.
      assert (Hkept : Z.of_nat (List.length
                (head ++ take (Z.to_nat (cap - Z.of_nat hl - 1)) message))
              = Z.of_nat hl + Z.of_nat ml).
      { rewrite length_app, length_take. fold hl ml. lia. }
      rewrite Hkept. split; [reflexivity |].
      rewrite length_take in Hj2. fold ml in Hj2. lia.
  - (* the header alone fills the buffer *)
    cbn [bind].
    destruct (Z.geb_spec (Z.of_nat hl) cap) as [_ | Hlt]; [| lia].
    rewrite (proj2 (Z.leb_le cap (Z.of_nat (hl + ml)))) by lia. cbn [andb].
    destruct (iter =? 0); [reflexivity |].
    assert (Ht : t = take (Z.to_nat (cap - 1)) head).
    { subst t. apply take_app_le. fold hl. lia. }
    exists junk1. rewrite Ht.
    assert (Hkept : Z.of_nat (List.length (take (Z.to_nat (cap - 1)) head)) = cap - 1).
    { rewrite length_take. fold hl. lia. }
    rewrite Hkept. split; [reflexivity |].
    rewrite length_take in Hj1. fold hl in Hj1. lia.
Qed.

(** The rest of the body, entered with [p] after the text [t] that the
    buffer holds before a NUL: the newline is stored inside the buffer, the
    assertion [p <= limit] holds, and the bytes written to the file are the
    text, terminated. *)
Lemma emit_spec (cc : Compilation) (lg : HdfsLogger.t) (iter : Z)
    (t : list Byte.byte) (junk : Mem.buffer) :
  Z.of_nat (List.length t) + 1 + Z.of_nat (List.length junk)
    = HdfsLogger.bufsize_of iter ->
  HdfsLogger.emit cc lg iter ((Some <$> (t ++ [Byte.x00])) ++ junk)
                  (Z.of_nat (List.length t)) =
    (_ <- HdfsWritableFile.Append_raw (HdfsLogger.file_ lg) (terminated t) ;;
     _ <- HdfsWritableFile.Flush (HdfsLogger.file_ lg) ;;
     Ret tt).
Proof.
  intros Hroom. unfold HdfsLogger.emit.
  set (limit := HdfsLogger.bufsize_of iter) in *.
  assert (Hbuf : (Some <$> (t ++ [Byte.x00])) ++ junk
                 = (Some <$> t) ++ Some Byte.x00 :: junk).
  { rewrite fmap_app, <- app_assoc. reflexivity. }
  assert (Hstore : Mem.store ((Some <$> (t ++ [Byte.x00])) ++ junk)
                     (Z.of_nat (List.length t)) newline
                   = Some ((Some <$> (t ++ [newline])) ++ junk)).
  { rewrite Hbuf. apply store_at_end. }
  assert (Hline : forall w junk',
             Mem.load_range ((Some <$> w) ++ junk') 0 (List.length w) = Some w).
  { intros w junk'. apply (load_range_written w [] junk'). }
  destruct t as [| c0 t0] using rev_ind.
  - (* nothing was written: [p == base] *)
    cbn [List.length]. change (Z.of_nat 0 =? 0) with true. cbn [bind].
    cbn [List.length] in Hstore. rewrite Hstore. cbn [mem bind].
    unfold assert_. rewrite (proj2 (Z.leb_le (Z.of_nat 0 + 1) limit)) by lia.
    rewrite orb_true_r. cbn [bind].
    change (Z.to_nat (Z.of_nat 0 + 1)) with (List.length ([] ++ [newline] : list Byte.byte)).
    rewrite Hline. cbn [mem bind]. reflexivity.
  - clear IHt0. rewrite length_app in *. cbn [List.length] in *.
    destruct (Z.eqb_spec (Z.of_nat (List.length t0 + 1)) 0) as [E | _]; [lia |].
    replace (Z.of_nat (List.length t0 + 1) - 1) with (Z.of_nat (List.length t0)) by lia.
    replace (((t0 ++ [c0]) ++ [Byte.x00])) with (t0 ++ c0 :: [Byte.x00])
      by (rewrite <- app_assoc; reflexivity).
    rewrite load_written. cbn [mem bind].
    rewrite terminated_snoc.
    replace (t0 ++ c0 :: [Byte.x00]) with ((t0 ++ [c0]) ++ [Byte.x00])
      by (rewrite <- app_assoc; reflexivity).
    unfold assert_.
    destruct (Byte.eqb c0 newline); cbn [negb bind].
    + rewrite (proj2 (Z.leb_le (Z.of_nat (List.length t0 + 1)) limit)) by lia.
      rewrite orb_true_r. cbn [bind].
      rewrite Nat2Z.id.
      replace (List.length t0 + 1)%nat with (List.length (t0 ++ [c0]))
        by (rewrite length_app; reflexivity).
      rewrite fmap_app, <- app_assoc. rewrite Hline. cbn [mem bind]. reflexivity.
    + rewrite Hstore. cbn [mem bind].
      rewrite (proj2 (Z.leb_le (Z.of_nat (List.length t0 + 1) + 1) limit)) by lia.
      rewrite orb_true_r. cbn [bind].
      replace (Z.to_nat (Z.of_nat (List.length t0 + 1) + 1))
        with (List.length ((t0 ++ [c0]) ++ [newline]))
        by (rewrite !length_app; cbn [List.length]; lia).
      rewrite Hline. cbn [mem bind]. reflexivity.
Qed.

Lemma terminated_ends_in_newline (t : list Byte.byte) :
  ends_in_newline (terminated t).
Proof.
  unfold ends_in_newline, terminated.
  destruct (last t) as [c |] eqn:Hlast.
  - destruct (Byte.eqb c newline) eqn:Hc.
    + rewrite Hlast. f_equal. apply Byte.byte_dec_bl. exact Hc.
    + apply last_snoc.
  - apply last_snoc.
Qed.

Lemma terminated_cases (t : list Byte.byte) :
  (last t = Some newline /\ terminated t = t) \/
  (last t <> Some newline /\ terminated t = t ++ [newline]).
Proof.
  unfold terminated. destruct (last t) as [c |] eqn:Hlast.
  - destruct (Byte.eqb c newline) eqn:Hc.
    + left. split; [| reflexivity]. f_equal. apply Byte.byte_dec_bl. exact Hc.
    + right. split; [| reflexivity]. intros [= ->].
      rewrite (Byte.byte_dec_lb eq_refl) in Hc. discriminate.
  - right. split; [discriminate | reflexivity].
Qed.

Lemma terminated_length (t : list Byte.byte) :
  (List.length (terminated t) <= List.length t + 1)%nat.
Proof.
  destruct (terminated_cases t) as [[_ ->] | [_ ->]]; [lia |].
  rewrite length_app. cbn. lia.
Qed.

(** The write of the line and the flush: one buffer is handed to
    [hdfsWrite], and whatever the client answers the logger goes on. *)
Lemma write_line (cl : Client) (s : St cl) (f : HdfsWritableFile.t)
    (line : list Byte.byte) :
  let r := run cl (_ <- HdfsWritableFile.Append_raw f line ;;
                   _ <- HdfsWritableFile.Flush f ;;
                   Ret tt) s in
  outcome r = Normal tt /\ written (trace r) = [line] /\
  primitives (remote (trace r)) = [p_write].
Proof.
  unfold HdfsWritableFile.Append_raw, HdfsWritableFile.Flush.
  cbn [bind do]. any_answer r.
  destruct (negb _); cbn [bind IOError do].
  - any_answer e. cbn. repeat split.
  - settle. cbn. repeat split.
Qed.

(** C4, as the code has it.  [Logv] stores nothing outside the buffer it
    formats into and its assertion [p <= limit] holds: it always returns.
    It hands one line to [hdfsWrite].  When the header and the message take
    fewer than 500 bytes, the line is that text, terminated, from the buffer
    of 500 bytes.  Otherwise the text is formatted again, with a header
    taken anew, into the buffer of 30000 bytes, and the line is its first
    29999 bytes, terminated (all of it when it takes fewer than 30000
    bytes).  The line ends in a newline and is no longer than the buffer.
    A newline is appended exactly when the text is empty or its last byte
    is not a newline; newlines that the text ends in are kept as they are,
    however many. *)
Theorem Logv_line_fits_buffer (cc : Compilation) (cl : Client)
    (s s1 s2 s3 s4 s5 : St cl) (lg : HdfsLogger.t) (message : list Byte.byte)
    (thread_id : Z) (tv0 tv1 : timeval) (tm0 tm1 : tm) :
  answers cl gettid_ s thread_id s1 ->
  answers cl gettimeofday s1 tv0 s2 ->
  answers cl (localtime_r (tv_sec tv0)) s2 tm0 s3 ->
  answers cl gettimeofday s3 tv1 s4 ->
  answers cl (localtime_r (tv_sec tv1)) s4 tm1 s5 ->
  let first := HdfsLogger.header tm0 tv0 thread_id ++ message in
  let second := HdfsLogger.header tm1 tv1 thread_id ++ message in
  let fits := Z.of_nat (List.length first) <? 500 in
  let capacity := if fits then 500 else 30000 in
  let text := if fits then first else take (Z.to_nat 29999) second in
  let r := run cl (HdfsLogger.Logv cc lg message) s in
  outcome r = Normal tt /\
  written (trace r) = [terminated text] /\
  primitives (remote (trace r)) = [p_write] /\
  (Z.of_nat (List.length second) < 30000 -> take (Z.to_nat 29999) second = second) /\
  ends_in_newline (terminated text) /\
  Z.of_nat (List.length (terminated text)) <= capacity /\
  (last text = Some newline -> terminated text = text) /\
  (last text <> Some newline -> terminated text = text ++ [newline]).
Proof.
  intros Htid Hclock0 Hlocal0 Hclock1 Hlocal1 first second fits capacity text r.
  assert (Hrun : outcome r = Normal tt /\ written (trace r) = [terminated text] /\
                 primitives (remote (trace r)) = [p_write]).
  { subst r. unfold HdfsLogger.Logv. unfold_run.
    cbn [HdfsLogger.passes]. unfold_run.
    pose proof (format_spec 0 (HdfsLogger.header tm0 tv0 thread_id) message) as H0.
    cbn zeta in H0. unfold kept in H0.
    change (HdfsLogger.bufsize_of 0) with 500 in H0.
    change (0 =? 0) with true in H0. rewrite andb_true_r in H0.
    fold first in H0. subst text capacity fits.
    rewrite Z.ltb_antisym.
    destruct (500 <=? Z.of_nat (List.length first)) eqn:Hover; cbn [negb].
    - (* the second pass *)
      rewrite H0. cbn [bind]. unfold_run.
      pose proof (format_spec (0 + 1) (HdfsLogger.header tm1 tv1 thread_id) message)
        as H1.
      cbn zeta in H1. unfold kept in H1.
      change (HdfsLogger.bufsize_of (0 + 1)) with 30000 in H1.
      change (0 + 1 =? 0) with false in H1. rewrite andb_false_r in H1.
      fold second in H1. change (30000 - 1) with 29999 in H1.
      destruct H1 as (junk & -> & Hroom). cbn [bind].
      rewrite (emit_spec cc lg (0 + 1) _ junk) by exact Hroom.
      pose proof (write_line cl s5 (HdfsLogger.file_ lg)
                    (terminated (take (Z.to_nat 29999) second))) as (Ho & Hw & Hp).
      cbn. repeat split; assumption.
    - destruct H0 as (junk & -> & Hroom). cbn [bind].
      change (500 - 1) with 499 in *.
      apply Z.leb_gt in Hover.
      rewrite (take_ge first) in * by lia.
      rewrite (emit_spec cc lg 0 _ junk) by exact Hroom.
      pose proof (write_line cl s3 (HdfsLogger.file_ lg) (terminated first))
        as (Ho & Hw & Hp).
      cbn. repeat split; assumption. }
  destruct Hrun as (Ho & Hw & Hp).
  split; [exact Ho |]. split; [exact Hw |]. split; [exact Hp |].
  split; [intros Hlt; apply take_ge; lia |].
  split; [apply terminated_ends_in_newline |].
  split.
  - pose proof (terminated_length text) as Hlen.
    subst text capacity. destruct fits eqn:Hfits.
    + apply Z.ltb_lt in Hfits. lia.
    + rewrite length_take in Hlen. lia.
  - destruct (terminated_cases text) as [[Hl Ht] | [Hl Ht]];
      split; intros; congruence.
Qed.

Lemma Logv_line_fits_buffer_witness :
  let cc := mkCompilation false true in
  let lg := HdfsLogger.mk (HdfsWritableFile.mk "/db/LOG" (Some 7)) in
  let head := HdfsLogger.header Canned.epoch (mkTimeval 0 0) 1 in
  let logged_by message :=
    written (trace (run (Canned.client Canned.idle)
                      (HdfsLogger.Logv cc lg message) tt)) in
  head = Printf.bytes "1970/01/01-00:00:00.000000 1 " /\
  logged_by (Printf.bytes "recovering log #3")
    = [head ++ Printf.bytes "recovering log #3" ++ [newline]] /\
  logged_by (repeat Byte.x61 600)
    = [head ++ repeat Byte.x61 600 ++ [newline]] /\
  logged_by (repeat Byte.x61 (Z.to_nat 40000))
    = [head ++ repeat Byte.x61 (Z.to_nat (29999 - Z.of_nat (List.length head))) ++ [newline]].
Proof.
  intros cc lg head logged_by.
  assert (Hby : forall message,
             logged_by message =
               [terminated
                  (if Z.of_nat (List.length (head ++ message)) <? 500
                   then head ++ message
                   else take (Z.to_nat 29999) (head ++ message))]).
  { intros message.
    apply (Logv_line_fits_buffer cc (Canned.client Canned.idle) tt tt tt tt tt tt
             lg message 1 (mkTimeval 0 0) (mkTimeval 0 0) Canned.epoch Canned.epoch);
      reflexivity. }
  split; [reflexivity |].
  rewrite !Hby. repeat split; vm_compute; reflexivity.
Defined.

(** What C4 says beyond that does not hold: the line need not end in
    exactly one newline.  A message that ends in two newlines gives a line
    that ends in two. *)
Lemma Logv_keeps_newlines_of_message :
  ~ (forall (cc : Compilation) (cl : Client) (s : St cl) (lg : HdfsLogger.t)
            (message line : list Byte.byte),
       written (trace (run cl (HdfsLogger.Logv cc lg message) s)) = [line] ->
       trailing_newlines line = 1%nat).
Proof.
  intros H.
  specialize (H (mkCompilation false true) (Canned.client Canned.idle) tt
                (HdfsLogger.mk (HdfsWritableFile.mk "/db/LOG" (Some 7)))
                (Printf.bytes "compaction done" ++ [newline; newline])
                (Printf.bytes "1970/01/01-00:00:00.000000 1 compaction done"
                   ++ [newline; newline])).
  assert (Hline : trailing_newlines
                    (Printf.bytes "1970/01/01-00:00:00.000000 1 compaction done"
                       ++ [newline; newline]) = 2%nat)
    by (vm_compute; reflexivity).
  rewrite Hline in H. discriminate H. vm_compute. reflexivity.
Qed.

(** ** The factories *)

(** X9.  [NewWritableFile] tests the handle.  When the open fails it
    returns an IOError and no object if [assert] is compiled out, and the
    assertion of the constructor fails if it is not; when the open succeeds
    it returns the object, which holds the handle. *)
Lemma NewWritableFile_tests_the_handle (cc : Compilation) (cl : Client)
    (s s1 : St cl) (fname : string) (h : hdfsFile) :
  answers cl (hdfsOpenFile fname O_WRONLY) s h s1 ->
  let r := run cl (HdfsEnv.NewWritableFile cc fname) s in
  (forall handle, h = Some handle ->
     outcome r = Normal (OK, Some (HdfsWritableFile.mk fname (Some handle)))) /\
  (h = None -> NDEBUG cc = true ->
     exists err_number, outcome r = Normal (StIOError fname err_number, None)) /\
  (h = None -> NDEBUG cc = false -> outcome r = Failed AssertionFailed).
Proof.
  intros Hopen. unfold HdfsEnv.NewWritableFile, HdfsEnv.new_, HdfsWritableFile.new.
  unfold_run. unfold assert_, HdfsWritableFile.isValid.
  cbn [HdfsWritableFile.hfile_].
  destruct h as [handle |].
  - rewrite orb_true_r. cbn. split; [| split]; try discriminate.
    intros ? [= <-]. reflexivity.
  - rewrite orb_false_r. destruct (NDEBUG cc).
    + cbn [bind negb HdfsWritableFile.hfile_]. unfold_run. any_answer e. cbn.
      split; [discriminate |]. split; [eauto | discriminate].
    + cbn. split; [discriminate |]. split; [discriminate | reflexivity].
Qed.

(** C2, where the code departs from it.  [NewSequentialFile] and
    [NewRandomAccessFile] do not test the handle: when [hdfsOpenFile]
    returns the null pointer, each of them returns OK together with an
    object that holds the null handle, for which [isValid] is false. *)
Theorem reader_factories_return_unopened_file (cl : Client) (s s1 : St cl)
    (fname : string) :
  answers cl (hdfsOpenFile fname O_RDONLY) s None s1 ->
  let unopened := HdfsReadableFile.mk fname None in
  HdfsReadableFile.isValid unopened = false /\
  outcome (run cl (HdfsEnv.NewSequentialFile fname) s)
    = Normal (OK, Some unopened) /\
  outcome (run cl (HdfsEnv.NewRandomAccessFile fname) s)
    = Normal (OK, Some unopened).
Proof.
  intros Hopen unopened.
  unfold HdfsEnv.NewSequentialFile, HdfsEnv.NewRandomAccessFile, HdfsEnv.new_,
    HdfsReadableFile.new.
  unfold_run. cbn. repeat split.
Qed.

Lemma reader_factories_return_unopened_file_witness :
  outcome (run (Canned.client Canned.failing)
             (HdfsEnv.NewSequentialFile "/db/MANIFEST-000002") tt)
    = Normal (OK, Some (HdfsReadableFile.mk "/db/MANIFEST-000002" None)) /\
  outcome (run (Canned.client Canned.failing)
             (HdfsEnv.NewRandomAccessFile "/db/MANIFEST-000002") tt)
    = Normal (OK, Some (HdfsReadableFile.mk "/db/MANIFEST-000002" None)).
Proof.
  apply (reader_factories_return_unopened_file (Canned.client Canned.failing)
           tt tt "/db/MANIFEST-000002").
  reflexivity.
Defined.

(** ** FileExists *)

Lemma FileExists_run (cl : Client) (s s' : St cl) (fname : string) (value : Z) :
  answers cl (hdfsExists fname) s value s' ->
  run cl (HdfsEnv.FileExists fname) s =
    mkRun (Normal (value =? 0)) s' [Ev (hdfsExists fname) value].
Proof.
  intros Hex. unfold HdfsEnv.FileExists. unfold_run.
  destruct (value =? 0); reflexivity.
Qed.

(** C10.  [FileExists] asks the client once whether the path exists.  It
    returns true when the answer is 0 and false for every other answer, so
    the answer 1 (the path is absent) and a negative answer (the check
    itself failed) give the same result: two runs whose answers are not 0
    cannot be told apart by what [FileExists] returns. *)
Theorem FileExists_true_only_on_zero (cl : Client) (s s' : St cl)
    (fname : string) (value : Z) :
  answers cl (hdfsExists fname) s value s' ->
  let r := run cl (HdfsEnv.FileExists fname) s in
  trace r = [Ev (hdfsExists fname) value] /\
  (value = 0 -> outcome r = Normal true) /\
  (value <> 0 -> outcome r = Normal false) /\
  (outcome r = Normal true -> value = 0) /\
  (forall (cl0 : Client) (s0 s0' : St cl0) (value0 : Z),
     answers cl0 (hdfsExists fname) s0 value0 s0' ->
     value <> 0 -> value0 <> 0 ->
     outcome (run cl0 (HdfsEnv.FileExists fname) s0) = outcome r).
Proof.
  intros Hex r. subst r. rewrite (FileExists_run cl s s' fname value Hex).
  cbn [trace outcome].
  split; [reflexivity |]. split; [intros ->; reflexivity |].
  split; [intros Hne; apply Z.eqb_neq in Hne; rewrite Hne; reflexivity |].
  split.
  - intros [= Hz]. apply Z.eqb_eq. exact Hz.
  - intros cl0 s0 s0' value0 Hex0 Hne Hne0.
    rewrite (FileExists_run cl0 s0 s0' fname value0 Hex0). cbn [outcome].
    apply Z.eqb_neq in Hne, Hne0. rewrite Hne, Hne0. reflexivity.
Qed.

Lemma FileExists_true_only_on_zero_witness :
  outcome (run (Canned.client Canned.failing) (HdfsEnv.FileExists "/db/CURRENT") tt)
    = Normal false /\
  outcome (run Namespace.client (HdfsEnv.FileExists "/db/CURRENT")
             (Namespace.holding ["/db/LOCK"])) = Normal false /\
  outcome (run Namespace.client (HdfsEnv.FileExists "/db/CURRENT")
             (Namespace.holding ["/db/CURRENT"])) = Normal true.
Proof.
  split; [| split].
  - apply (FileExists_true_only_on_zero (Canned.client Canned.failing) tt tt
             "/db/CURRENT" (-1)); [reflexivity | lia].
  - apply (FileExists_true_only_on_zero Namespace.client
             (Namespace.holding ["/db/LOCK"]) (Namespace.holding ["/db/LOCK"])
             "/db/CURRENT" 1); [vm_compute; reflexivity | lia].
  - apply (FileExists_true_only_on_zero Namespace.client
             (Namespace.holding ["/db/CURRENT"]) (Namespace.holding ["/db/CURRENT"])
             "/db/CURRENT" 0); [vm_compute; reflexivity | reflexivity].
Defined.

(** ** GetChildren *)

Section Basename.

Lemma chars_append (a b : string) :
  list_ascii_of_string (String.append a b) = (list_ascii_of_string a ++ list_ascii_of_string b)%list.
Proof.
  induction a as [| c a IH]; [reflexivity |].
  change (String c a +:+ b) with (String c (a +:+ b)).
  cbn [list_ascii_of_string app]. f_equal. exact IH.
Qed.

Lemma rindex_None (s : string) (c : ascii) :
  CString.rindex s c = None <-> c ∉ list_ascii_of_string s.
Proof.
  induction s as [| a rest IH]; cbn.
  - split; [intros _; apply not_elem_of_nil | reflexivity].
  - rewrite not_elem_of_cons.
    destruct (CString.rindex rest c) as [found |].
    + split; [discriminate |]. intros [_ Hrest]. apply IH in Hrest. discriminate.
    + destruct (Ascii.eqb_spec a c) as [-> | Hne].
      * split; [discriminate |]. intros [Hc _]. contradiction.
      * split; [| reflexivity]. intros _. split; [congruence |].
        apply IH. reflexivity.
Qed.

Lemma rindex_Some (s found : string) (c : ascii) :
  CString.rindex s c = Some found ->
  exists pre post,
    s = String.append pre (String c post) /\
    found = String c post /\
    c ∉ list_ascii_of_string post.
Proof.
  revert found. induction s as [| a rest IH]; intros found; cbn; [discriminate |].
  destruct (CString.rindex rest c) as [found' |] eqn:Hrest.
  - intros [= <-]. destruct (IH found' eq_refl) as (pre & post & -> & -> & Hpost).
    exists (String a pre), post. repeat split. exact Hpost.
  - destruct (Ascii.eqb_spec a c) as [-> | Hne]; [| discriminate].
    intros [= <-]. exists EmptyString, rest. repeat split.
    apply rindex_None. exact Hrest.
Qed.

Lemma up_to_separator_all (l : list ascii) :
  CString.slash ∉ l -> up_to_separator l = l.
Proof.
  induction l as [| a l IH]; cbn; [reflexivity |].
  rewrite not_elem_of_cons. intros [Hne Hl].
  destruct (Ascii.eqb_spec a CString.slash) as [E | _]; [congruence |].
  f_equal. apply IH. exact Hl.
Qed.

Lemma up_to_separator_app (l l' : list ascii) :
  CString.slash ∉ l -> up_to_separator (l ++ CString.slash :: l')%list = l.
Proof.
  induction l as [| a l IH]; cbn.
  - intros _. reflexivity.
  - rewrite not_elem_of_cons. intros [Hne Hl].
    destruct (Ascii.eqb_spec a CString.slash) as [E | _]; [congruence |].
    f_equal. apply IH. exact Hl.
Qed.

(** The null pointer from [rindex] means that the name holds no
    separator. *)
Lemma rindex_finds_separator (name : string) :
  has_separator name = bool_decide (is_Some (CString.rindex name CString.slash)).
Proof.
  unfold has_separator.
  destruct (CString.rindex name CString.slash) as [found |] eqn:Hr.
  - rewrite (bool_decide_eq_true_2 (is_Some (Some found))) by eauto.
    apply bool_decide_eq_true_2.
    destruct (decide (CString.slash ∈ list_ascii_of_string name)) as [H | H];
      [exact H |].
    apply rindex_None in H. congruence.
  - rewrite (bool_decide_eq_false_2 (is_Some None)) by (intros [? ?]; discriminate).
    apply bool_decide_eq_false_2. apply rindex_None. exact Hr.
Qed.

(** What follows the pointer from [rindex] is the base name. *)
Lemma rindex_next_is_basename (name found : string) :
  CString.rindex name CString.slash = Some found ->
  CString.next found = basename name.
Proof.
  intros Hr. destruct (rindex_Some _ _ _ Hr) as (pre & post & -> & -> & Hpost).
  unfold basename. cbn [CString.next].
  rewrite chars_append. cbn [list_ascii_of_string].
  rewrite rev_app_distr. cbn [rev]. rewrite <- app_assoc. cbn [app].
  rewrite up_to_separator_app.
  - rewrite rev_involutive.
    symmetry. apply string_of_list_ascii_of_string.
  - rewrite list_elem_of_In, <- in_rev, <- list_elem_of_In. exact Hpost.
Qed.

End Basename.

(** The names that [GetChildren] adds for a listing. *)
Lemma push_entries_adds_basenames (cl : Client) (s : St cl)
    (infos : list hdfsFileInfo) (remaining i : nat) (result : list string) :
  (i + remaining)%nat = List.length infos ->
  run cl (HdfsEnv.push_entries (Some infos) remaining (Z.of_nat i) result) s =
    mkRun (Normal (result ++
                   (basename <$> List.filter has_separator (mName <$> drop i infos)))%list)
          s [].
Proof.
  revert i result. induction remaining as [| k IH]; intros i result Hlen.
  - cbn [HdfsEnv.push_entries]. settle.
    rewrite drop_ge by lia. cbn. rewrite app_nil_r. reflexivity.
  - cbn [HdfsEnv.push_entries].
    destruct (lookup_lt_is_Some_2 infos i ltac:(lia)) as [info Hinfo].
    cbn [mbind option_bind]. rewrite Nat2Z.id, Hinfo. cbn [mem bind].
    replace (Z.of_nat i + 1) with (Z.of_nat (S i)) by lia.
    rewrite IH by lia.
    rewrite (drop_S _ _ _ Hinfo). cbn [fmap list_fmap List.filter].
    rewrite rindex_finds_separator.
    destruct (CString.rindex (mName info) CString.slash) as [found |] eqn:Hr.
    + rewrite (bool_decide_eq_true_2 (is_Some (Some found))) by eauto.
      cbn [fmap list_fmap]. rewrite <- app_assoc. cbn.
      rewrite (rindex_next_is_basename _ _ Hr). reflexivity.
    + rewrite (bool_decide_eq_false_2 (is_Some None)) by (intros [? ?]; discriminate).
      reflexivity.
Qed.

(** C5, as the code has it.  [GetChildren] appends to the vector that the
    caller passes and never clears it.  It first asks whether the path
    exists.  On the answer 1 (it does not) it returns OK and leaves the
    vector as it was, so that the result is the empty sequence when the
    vector was empty.  On the answer 0 it lists the directory; for a count
    that is not negative it returns OK, having appended, in order, the base
    name of each listed entry whose name holds a separator and nothing for
    the other entries; for a negative count it throws; a count of zero
    appends nothing, whatever the array.  On any other answer it throws. *)
Theorem GetChildren_lists_basenames (cl : Client) (s s1 s2 : St cl)
    (path : string) (result : list string) (value : Z) (reply : ListReply) :
  answers cl (hdfsExists path) s value s1 ->
  answers cl (hdfsListDirectory path) s1 reply s2 ->
  let r := run cl (HdfsEnv.GetChildren path result) s in
  (value = 1 ->
     r = mkRun (Normal (OK, result)) s1 [Ev (hdfsExists path) value]) /\
  (value = 0 ->
     forall infos,
       ls_infos reply = Some infos ->
       ls_numEntries reply = Z.of_nat (List.length infos) ->
       outcome r =
         Normal (OK, (result ++
                      (basename <$> List.filter has_separator (mName <$> infos)))%list)) /\
  (value = 0 -> ls_numEntries reply = 0 -> outcome r = Normal (OK, result)) /\
  (value = 0 -> ls_numEntries reply < 0 ->
     exists msg, outcome r = Failed (Fatal msg)) /\
  (value <> 0 -> value <> 1 ->
     exists msg, outcome r = Failed (Fatal msg)).
Proof.
  intros Hex Hls. unfold HdfsEnv.GetChildren. unfold_run.
  destruct (Z.eqb_spec value 0) as [-> | Hne0].
  - unfold_run. split; [discriminate |]. split; [| split; [| split; [| congruence]]].
    + intros _ infos Hinfos Hnum. rewrite Hinfos, Hnum.
      destruct (Z.geb_spec (Z.of_nat (List.length infos)) 0) as [_ | Hneg]; [| lia].
      rewrite Nat2Z.id. rewrite run_bind.
      pose proof (push_entries_adds_basenames cl s2 infos (List.length infos)
                    0%nat result eq_refl) as Hpush.
      change (Z.of_nat 0) with 0 in Hpush. rewrite drop_0 in Hpush. rewrite Hpush.
      cbn. reflexivity.
    + intros _ Hzero. rewrite Hzero. cbn [Z.geb Z.compare Z.to_nat].
      cbn [HdfsEnv.push_entries bind]. settle. reflexivity.
    + intros _ Hneg.
      destruct (Z.geb_spec (ls_numEntries reply) 0) as [Hge | _]; [lia |].
      settle. cbn. eauto.
  - destruct (Z.eqb_spec value 1) as [-> | Hne1].
    + settle. split; [reflexivity |]. repeat split; intros; congruence.
    + settle. cbn. split; [congruence |]. split; [congruence |].
      split; [congruence |]. split; [congruence | eauto].
Qed.

Lemma GetChildren_lists_basenames_witness :
  let infos := [mkFileInfo "/db/CURRENT" 16 0; mkFileInfo "LOCK" 0 0;
                mkFileInfo "/db/archive/000003.log" 0 0] in
  outcome (run (Canned.client (Canned.listing infos)) (HdfsEnv.GetChildren "/db" []) tt)
    = Normal (OK, ["CURRENT"; "000003.log"]) /\
  run Namespace.client (HdfsEnv.GetChildren "/db" []) (Namespace.holding [])
    = mkRun (Normal (OK, [])) (Namespace.holding []) [Ev (hdfsExists "/db") 1] /\
  (exists msg,
     outcome (run (Canned.client Canned.failing) (HdfsEnv.GetChildren "/db" []) tt)
       = Failed (Fatal msg)).
Proof.
  intros infos.
  pose proof (GetChildren_lists_basenames (Canned.client (Canned.listing infos))
                tt tt tt "/db" [] 0 _ eq_refl eq_refl) as (_ & Hlist & _).
  pose proof (GetChildren_lists_basenames Namespace.client
                (Namespace.holding []) (Namespace.holding []) (Namespace.holding [])
                "/db" [] 1 (mkListReply (Some []) 0) eq_refl eq_refl)
    as (Habsent & _).
  pose proof (GetChildren_lists_basenames (Canned.client Canned.failing)
                tt tt tt "/db" [] (-1) _ eq_refl eq_refl) as (_ & _ & _ & _ & Hfatal).
  split; [| split].
  - apply (Hlist eq_refl infos); reflexivity.
  - apply Habsent. reflexivity.
  - apply Hfatal; lia.
Defined.

(** What C5 says beyond that does not hold: the vector returned is not
    empty for every path that does not exist, and is not exactly the base
    names for every listing.  What the caller's vector held is still
    there. *)
Lemma GetChildren_keeps_entries_of_caller :
  ~ (forall (cl : Client) (s s1 : St cl) (path : string) (result : list string),
       answers cl (hdfsExists path) s 1 s1 ->
       outcome (run cl (HdfsEnv.GetChildren path result) s) = Normal (OK, [])) /\
  ~ (forall (cl : Client) (s s1 s2 : St cl) (path : string)
            (result : list string) (infos : list hdfsFileInfo),
       answers cl (hdfsExists path) s 0 s1 ->
       answers cl (hdfsListDirectory path) s1
         (mkListReply (Some infos) (Z.of_nat (List.length infos))) s2 ->
       outcome (run cl (HdfsEnv.GetChildren path result) s) =
         Normal (OK, basename <$> List.filter has_separator (mName <$> infos))).
Proof.
  split.
  - intros H.
    specialize (H Namespace.client (Namespace.holding []) (Namespace.holding [])
                  "/db" ["stale"] eq_refl).
    vm_compute in H. discriminate H.
  - intros H.
    specialize (H (Canned.client (Canned.listing [mkFileInfo "/db/CURRENT" 16 0]))
                  tt tt tt "/db" ["stale"] [mkFileInfo "/db/CURRENT" 16 0]
                  eq_refl eq_refl).
    vm_compute in H. discriminate H.
Qed.

(** ** RenameFile *)

Lemma RenameFile_calls (cl : Client) (s s1 s2 : St cl) (src target : string)
    (d r : Z) :
  answers cl (hdfsDelete target) s d s1 ->
  answers cl (hdfsRename src target) s1 r s2 ->
  let res := run cl (HdfsEnv.RenameFile src target) s in
  remote (trace res) =
    [Ev (hdfsDelete target) d; Ev (hdfsRename src target) r] /\
  (r = 0 -> outcome res = Normal OK) /\
  (r <> 0 -> returns_IOError res src).
Proof.
  intros Hdel Hren. unfold HdfsEnv.RenameFile, returns_IOError. unfold_run.
  destruct (Z.eqb_spec r 0) as [-> | Hne].
  - settle. cbn. split; [reflexivity |]. split; [reflexivity | congruence].
  - unfold_run. any_answer e. cbn.
    split; [reflexivity |]. split; [congruence | eauto].
Qed.

Lemma removed_is_absent (X : gset string) (x : string) : x ∉ X ∖ {[ x ]}.
Proof.
  rewrite elem_of_difference, elem_of_singleton. intros [_ Hne]. apply Hne. reflexivity.
Qed.

(** On the name space held in memory, where the deletion of a path that
    exists succeeds: when the target exists and the source does not, the
    deletion returns 0, the rename fails, and the target is gone. *)
Lemma RenameFile_without_source (ns : Namespace.state) (src target : string) :
  target ∈ Namespace.paths ns ->
  src ∉ Namespace.paths ns ->
  let res := run Namespace.client (HdfsEnv.RenameFile src target) ns in
  remote (trace res) =
    [Ev (hdfsDelete target) 0; Ev (hdfsRename src target) (-1)] /\
  outcome res = Normal (StIOError src Namespace.ENOENT) /\
  Namespace.paths (final res) = Namespace.paths ns ∖ {[ target ]} /\
  (src ∉ Namespace.paths (final res)) /\
  (target ∉ Namespace.paths (final res)).
Proof.
  intros Hin Hout. unfold HdfsEnv.RenameFile.
  cbn [bind do run Namespace.client answer Namespace.step].
  rewrite (bool_decide_eq_true_2 _ Hin).
  cbn [Namespace.paths Namespace.last_error].
  assert (Hsrc : src ∉ Namespace.paths ns ∖ {[ target ]}).
  { rewrite elem_of_difference. intros [Hsrc _]. contradiction. }
  rewrite (bool_decide_eq_false_2 _ Hsrc). cbn.
  split; [reflexivity |]. split; [reflexivity |]. split; [reflexivity |].
  split; [exact Hsrc | apply removed_is_absent].
Qed.

(** Behind a file system that refuses the deletion: when the target
    exists, the rename fails because of it, and every path is left as it
    was. *)
Lemma RenameFile_without_deletion (ns : Namespace.state) (src target : string) :
  target ∈ Namespace.paths ns ->
  let res := run Protected.client (HdfsEnv.RenameFile src target) ns in
  returns_IOError res src /\
  Namespace.paths (final res) = Namespace.paths ns.
Proof.
  intros Hin. unfold HdfsEnv.RenameFile, returns_IOError.
  cbn [bind do run Protected.client Protected.step answer Namespace.step
       Namespace.failed Namespace.paths].
  rewrite (bool_decide_eq_true_2 _ Hin).
  destruct (bool_decide (src ∈ Namespace.paths ns)); cbn; eauto.
Qed.

(** C9, as the code has it.  [RenameFile] first calls [hdfsDelete] on the
    target and drops its value, then calls [hdfsRename]; it returns OK
    exactly when the rename returns 0 and an IOError otherwise, whatever the
    deletion returned.  What a failed rename leaves behind depends on the
    deletion.  On a file system where the target exists beforehand, its
    deletion succeeds and the source does not exist, the rename fails, the
    call ends in an IOError and leaves a file system with neither the
    target nor the source.  On a file system that refuses the deletion, the
    rename fails on a target that exists, the call ends in an IOError, and
    the target, and the source if there was one, are still there. *)
Theorem RenameFile_deletes_target_then_renames (src target : string) :
  (forall (cl : Client) (s s1 s2 : St cl) (d r : Z),
     answers cl (hdfsDelete target) s d s1 ->
     answers cl (hdfsRename src target) s1 r s2 ->
     let res := run cl (HdfsEnv.RenameFile src target) s in
     remote (trace res) =
       [Ev (hdfsDelete target) d; Ev (hdfsRename src target) r] /\
     (outcome res = Normal OK <-> r = 0) /\
     (r <> 0 -> returns_IOError res src)) /\
  (forall ns : Namespace.state,
     target ∈ Namespace.paths ns ->
     src ∉ Namespace.paths ns ->
     let res := run Namespace.client (HdfsEnv.RenameFile src target) ns in
     remote (trace res) =
       [Ev (hdfsDelete target) 0; Ev (hdfsRename src target) (-1)] /\
     returns_IOError res src /\
     Namespace.paths (final res) = Namespace.paths ns ∖ {[ target ]} /\
     (src ∉ Namespace.paths (final res)) /\
     (target ∉ Namespace.paths (final res))) /\
  (forall ns : Namespace.state,
     target ∈ Namespace.paths ns ->
     let res := run Protected.client (HdfsEnv.RenameFile src target) ns in
     returns_IOError res src /\
     Namespace.paths (final res) = Namespace.paths ns /\
     target ∈ Namespace.paths (final res) /\
     (src ∈ Namespace.paths ns -> src ∈ Namespace.paths (final res))).
Proof.
  split; [| split].
  - intros cl s s1 s2 d r Hdel Hren res.
    destruct (RenameFile_calls cl s s1 s2 src target d r Hdel Hren)
      as (Htr & Hok & Hio).
    split; [exact Htr |]. split; [| exact Hio].
    split; [| exact Hok].
    intros Hout. destruct (Z.eq_dec r 0) as [E | E]; [exact E |].
    destruct (Hio E) as [e He]. fold res in He. congruence.
  - intros ns Hin Hout res.
    destruct (RenameFile_without_source ns src target Hin Hout)
      as (Htr & Hio & Hpaths & Hsrc & Htarget).
    split; [exact Htr |]. split; [exists Namespace.ENOENT; exact Hio |].
    split; [exact Hpaths |]. split; assumption.
  - intros ns Hin res.
    destruct (RenameFile_without_deletion ns src target Hin) as (Hio & Hpaths).
    split; [exact Hio |]. split; [exact Hpaths |].
    fold res in Hpaths. rewrite Hpaths. split; [exact Hin | tauto].
Qed.

Lemma RenameFile_deletes_target_then_renames_witness :
  let res := run Namespace.client (HdfsEnv.RenameFile "/db/new" "/db/CURRENT")
               (Namespace.holding ["/db/CURRENT"]) in
  let kept := run Protected.client (HdfsEnv.RenameFile "/db/new" "/db/CURRENT")
                (Namespace.holding ["/db/CURRENT"; "/db/new"]) in
  remote (trace res) =
    [Ev (hdfsDelete "/db/CURRENT") 0; Ev (hdfsRename "/db/new" "/db/CURRENT") (-1)] /\
  returns_IOError res "/db/new" /\
  ("/db/CURRENT" ∉ Namespace.paths (final res)) /\
  ("/db/new" ∉ Namespace.paths (final res)) /\
  returns_IOError kept "/db/new" /\
  "/db/CURRENT" ∈ Namespace.paths (final kept) /\
  "/db/new" ∈ Namespace.paths (final kept).
Proof.
  intros res kept.
  destruct (RenameFile_deletes_target_then_renames "/db/new" "/db/CURRENT")
    as (_ & Hlost & Hkept).
  destruct (Hlost (Namespace.holding ["/db/CURRENT"]))
    as (Htr & Hio & _ & Hsrc & Htarget).
  - vm_compute. reflexivity.
  - vm_compute. discriminate.
  - destruct (Hkept (Namespace.holding ["/db/CURRENT"; "/db/new"]))
      as (Hio' & _ & Htarget' & Hsrc').
    + vm_compute. reflexivity.
    + split; [exact Htr |]. split; [exact Hio |].
      split; [exact Htarget |]. split; [exact Hsrc |].
      split; [exact Hio' |]. split; [exact Htarget' |].
      apply Hsrc'. vm_compute. reflexivity.
Defined.

(** What C9 says beyond that does not hold: a rename that fails after the
    target existed need not leave the file system without the target and
    the source.  When the deletion of the target is refused, the rename
    fails and both are still there. *)
Lemma RenameFile_refused_deletion_keeps_both :
  let res := run Protected.client (HdfsEnv.RenameFile "/db/new" "/db/CURRENT")
               (Namespace.holding ["/db/CURRENT"; "/db/new"]) in
  "/db/CURRENT" ∈ Namespace.paths (Namespace.holding ["/db/CURRENT"; "/db/new"]) /\
  remote (trace res) =
    [Ev (hdfsDelete "/db/CURRENT") (-1);
     Ev (hdfsRename "/db/new" "/db/CURRENT") (-1)] /\
  outcome res = Normal (StIOError "/db/new" Namespace.EEXIST) /\
  ~ (("/db/CURRENT" ∉ Namespace.paths (final res)) /\
     ("/db/new" ∉ Namespace.paths (final res))).
Proof.
  intros res. split; [vm_compute; reflexivity |].
  split; [reflexivity |]. split; [reflexivity |].
  intros [Htarget _]. apply Htarget. vm_compute. reflexivity.
Qed.

(** ** More on the file wrappers *)

Lemma Read_short_witness :
  let cc := mkCompilation true false in
  let f := HdfsReadableFile.mk "/db/f" (Some 7) in
  outcome (run (Canned.client Canned.idle) (HdfsReadableFile.Read cc f 10) tt)
    = Normal (OK, mkSlice [] 0) /\
  (exists err_number,
     outcome (run (Canned.client stalled) (HdfsReadableFile.Read cc f 10) tt)
       = Normal (StIOError "/db/f" err_number,
                 mkSlice [Byte.x61; Byte.x62; Byte.x63] 3)).
Proof.
  intros cc f. split.
  - apply (Read_short cc (Canned.client Canned.idle) tt tt tt f 10 0
             (mkReadReply 0 []) (mkFileInfo "/db/f" 0 0)).
    + cbn. lia.
    + lia.
    + reflexivity.
    + exists tt. split; reflexivity.
    + reflexivity.
  - apply (Read_short cc (Canned.client stalled) tt tt tt f 10 3
             (mkReadReply 3 [Byte.x61; Byte.x62; Byte.x63])
             (mkFileInfo "/db/f" 100 0)).
    + cbn. lia.
    + lia.
    + reflexivity.
    + exists tt. split; reflexivity.
    + cbn. lia.
Defined.

Lemma Read_full_witness :
  run (Canned.client stalled)
      (HdfsReadableFile.Read (mkCompilation true true)
         (HdfsReadableFile.mk "/db/f" (Some 7)) 3) tt =
    mkRun (Normal (OK, mkSlice [Byte.x61; Byte.x62; Byte.x63] 3)) tt
          [Ev (hdfsRead (Some 7) 3) (mkReadReply 3 [Byte.x61; Byte.x62; Byte.x63])].
Proof.
  apply (Read_full (mkCompilation true true) (Canned.client stalled) tt tt
           (HdfsReadableFile.mk "/db/f" (Some 7)) 3
           (mkReadReply 3 [Byte.x61; Byte.x62; Byte.x63])).
  - cbn. lia.
  - lia.
  - reflexivity.
Defined.

Lemma Read_short_of_unknown_file_witness :
  outcome (run (Canned.client vanished)
             (HdfsReadableFile.Read (mkCompilation true true)
                (HdfsReadableFile.mk "/db/f" (Some 7)) 10) tt)
    = Failed (Fatal "fileSize on unknown file /db/f").
Proof.
  apply (Read_short_of_unknown_file (mkCompilation true true)
           (Canned.client vanished) tt tt tt
           (HdfsReadableFile.mk "/db/f" (Some 7)) 10 0 (mkReadReply 0 [])).
  - cbn. lia.
  - lia.
  - reflexivity.
  - exists tt. split; reflexivity.
Defined.

Lemma to_tSize_in_range (z : Z) : - 2 ^ 31 <= z < 2 ^ 31 -> to_tSize z = z.
Proof.
  unfold to_tSize, to_signed. intros Hz.
  change (2 ^ (32 - 1)) with 2147483648 in *.
  change (2 ^ 31) with 2147483648 in *.
  change (2 ^ 32) with 4294967296 in *.
  rewrite Z.mod_small; lia.
Qed.

(** The count of a write, stored in a [size_t], equals the length of the
    data only when the write returned that length. *)
Lemma write_count_matches (r len : Z) :
  - 2 ^ 31 <= r < 2 ^ 31 -> 0 <= len < 2 ^ 63 ->
  (to_uint64 r =? len) = (r =? len).
Proof.
  intros Hr Hlen. unfold to_uint64.
  change (2 ^ 31) with 2147483648 in *.
  change (2 ^ 63) with 9223372036854775808 in *.
  destruct (Z.eqb_spec r len) as [-> | Hne].
  - apply Z.eqb_eq. apply Z.mod_small.
    change (2 ^ 64) with 18446744073709551616. lia.
  - apply Z.eqb_neq. destruct (Z.lt_ge_cases r 0) as [Hneg | Hpos].
    + replace r with (r + 18446744073709551616 - 1 * 2 ^ 64)
        by (change (2 ^ 64) with 18446744073709551616; lia).
      unfold Z.sub at 1. rewrite <- Z.mul_opp_l, Z_mod_plus_full.
      rewrite Z.mod_small by (change (2 ^ 64) with 18446744073709551616; lia).
      lia.
    + rewrite Z.mod_small by (change (2 ^ 64) with 18446744073709551616; lia).
      exact Hne.
Qed.

(** X4.  [Append] makes one call of [hdfsWrite] and does not try again.
    The call is handed the data and its length as a [tSize], which is the
    length itself for data shorter than 2^31 bytes.  [Append] returns OK
    when the call returns the length of the data, and an IOError for every
    other count, a short one and the -1 of a failed write alike.  For data
    of 2^31 bytes or more no count that the call can return is the length,
    and [Append] returns an IOError whatever was written. *)
Theorem Append_all_or_IOError (cl : Client) (s s1 : St cl)
    (f : HdfsWritableFile.t) (data : list Byte.byte) (r : Z) :
  let h := HdfsWritableFile.hfile_ f in
  let len := Z.of_nat (List.length data) in
  len < 2 ^ 63 ->
  - 2 ^ 31 <= r < 2 ^ 31 ->
  answers cl (hdfsWrite h data (to_tSize len)) s r s1 ->
  let res := run cl (HdfsWritableFile.Append f data) s in
  remote (trace res) = [Ev (hdfsWrite h data (to_tSize len)) r] /\
  (len < 2 ^ 31 -> to_tSize len = len) /\
  (r = len -> outcome res = Normal OK) /\
  (r <> len -> returns_IOError res (HdfsWritableFile.filename_ f)) /\
  (2 ^ 31 <= len -> returns_IOError res (HdfsWritableFile.filename_ f)).
Proof.
  intros h len Hlen Hr Hwrite. unfold HdfsWritableFile.Append, returns_IOError.
  fold h. fold len. unfold_run.
  rewrite (write_count_matches r len) by (subst len; lia).
  assert (Hsmall : len < 2 ^ 31 -> to_tSize len = len).
  { intros Hlt. apply to_tSize_in_range. subst len. lia. }
  destruct (Z.eqb_spec r len) as [E | E]; cbn [negb].
  - settle. cbn. split; [reflexivity |]. split; [exact Hsmall |].
    split; [reflexivity |]. split; [contradiction |].
    intros Hbig. exfalso. subst len.
    change (2 ^ 31) with 2147483648 in *. lia.
  - unfold_run. any_answer e. cbn.
    split; [reflexivity |]. split; [exact Hsmall |].
    split; [contradiction |]. split; eauto.
Qed.

Lemma Append_all_or_IOError_witness :
  let f := HdfsWritableFile.mk "/db/000003.log" (Some 7) in
  let data := Printf.bytes "hello" in
  outcome (run (Canned.client accepting5) (HdfsWritableFile.Append f data) tt)
    = Normal OK /\
  returns_IOError
    (run (Canned.client Canned.idle) (HdfsWritableFile.Append f data) tt)
    "/db/000003.log" /\
  returns_IOError
    (run (Canned.client Canned.failing) (HdfsWritableFile.Append f data) tt)
    "/db/000003.log".
Proof.
  intros f data.
  destruct (Append_all_or_IOError (Canned.client accepting5) tt tt f data 5)
    as (_ & _ & Hfull & _); [cbn; lia | lia | reflexivity |].
  destruct (Append_all_or_IOError (Canned.client Canned.idle) tt tt f data 0)
    as (_ & _ & _ & Hshort & _); [cbn; lia | lia | reflexivity |].
  destruct (Append_all_or_IOError (Canned.client Canned.failing) tt tt f data (-1))
    as (_ & _ & _ & Hfailed & _); [cbn; lia | lia | reflexivity |].
  split; [apply Hfull; reflexivity |].
  split; [apply Hshort; cbn; lia | apply Hfailed; cbn; lia].
Defined.

(** X5.  The two overloads of [Append] do the same on data shorter than
    2^31 bytes: the same call, the same status. *)
Theorem Append_overloads_agree (cl : Client) (s s1 : St cl)
    (f : HdfsWritableFile.t) (data : list Byte.byte) (r : Z) :
  let len := Z.of_nat (List.length data) in
  len < 2 ^ 31 ->
  - 2 ^ 31 <= r < 2 ^ 31 ->
  answers cl (hdfsWrite (HdfsWritableFile.hfile_ f) data (to_tSize len)) s r s1 ->
  run cl (HdfsWritableFile.Append_raw f data) s
    = run cl (HdfsWritableFile.Append f data) s.
Proof.
  intros len Hlen Hr Hwrite.
  unfold HdfsWritableFile.Append, HdfsWritableFile.Append_raw.
  fold len. unfold_run.
  rewrite (write_count_matches r len) by (subst len; lia).
  rewrite (to_tSize_in_range len) by (subst len; lia).
  reflexivity.
Qed.

Lemma Append_overloads_agree_witness :
  let f := HdfsWritableFile.mk "/db/LOG" (Some 7) in
  run (Canned.client accepting5) (HdfsWritableFile.Append_raw f (Printf.bytes "hello")) tt
    = run (Canned.client accepting5) (HdfsWritableFile.Append f (Printf.bytes "hello")) tt.
Proof.
  intros f.
  apply (Append_overloads_agree (Canned.client accepting5) tt tt f
           (Printf.bytes "hello") 5); [cbn; lia | lia | reflexivity].
Defined.

Lemma Close_releases_once_witness :
  let f := HdfsWritableFile.mk "/db/000003.log" (Some 7) in
  outcome (run (Canned.client Canned.idle) (HdfsWritableFile.Close f) tt)
    = Normal (OK, HdfsWritableFile.mk "/db/000003.log" None) /\
  closed (trace (run (Canned.client Canned.idle) (close_and_destroy f) tt))
    = [Some 7].
Proof.
  intros f.
  apply (Close_releases_once (Canned.client Canned.idle) tt tt f). reflexivity.
Defined.

(** X7.  [Close] does not look at the handle it holds.  After a [Close]
    that succeeded, a second [Close] on the same object calls
    [hdfsCloseFile] again, on the null handle, and reports whatever that
    call returns. *)
Theorem second_Close_passes_null_handle (cl : Client) (s s1 s2 : St cl)
    (f : HdfsWritableFile.t) (r : Z) :
  let h := HdfsWritableFile.hfile_ f in
  answers cl (hdfsCloseFile h) s 0 s1 ->
  answers cl (hdfsCloseFile None) s1 r s2 ->
  let res := run cl (close_twice f) s in
  closed (trace res) = [h; None] /\
  (r = 0 -> outcome res = Normal (OK, OK)) /\
  (r <> 0 ->
     exists err_number,
       outcome res =
         Normal (OK, StIOError (HdfsWritableFile.filename_ f) err_number)).
Proof.
  intros h Hfirst Hsecond. unfold close_twice, HdfsWritableFile.Close.
  fold h. unfold_run. change (negb (0 =? 0)) with false.
  cbn [snd fst HdfsWritableFile.hfile_ HdfsWritableFile.filename_ bind do].
  unfold_run.
  destruct (Z.eqb_spec r 0) as [E | E]; cbn [negb].
  - settle. cbn. split; [reflexivity |]. split; [reflexivity | contradiction].
  - unfold_run. any_answer e. cbn.
    split; [reflexivity |]. split; [contradiction | eauto].
Qed.

Lemma second_Close_passes_null_handle_witness :
  let f := HdfsWritableFile.mk "/db/000003.log" (Some 7) in
  closed (trace (run (Canned.client Canned.idle) (close_twice f) tt))
    = [Some 7; None] /\
  outcome (run (Canned.client Canned.idle) (close_twice f) tt) = Normal (OK, OK).
Proof.
  intros f.
  destruct (second_Close_passes_null_handle (Canned.client Canned.idle) tt tt tt f 0
              eq_refl eq_refl) as (Hclosed & Hok & _).
  split; [exact Hclosed | apply Hok; reflexivity].
Defined.

(** ** More on the factories and the destructors *)

(** X8.  The destructor of the readable file does not test its handle.  A
    file from [NewSequentialFile] is closed with whatever [hdfsOpenFile]
    returned, so that after a failed open [hdfsCloseFile] is called on the
    null handle; the destructor of the writable file makes no call when its
    handle is null. *)
Theorem reader_destructor_closes_any_handle (cl : Client) (s s1 s2 : St cl)
    (fname : string) (h : hdfsFile) (r : Z) :
  answers cl (hdfsOpenFile fname O_RDONLY) s h s1 ->
  answers cl (hdfsCloseFile h) s1 r s2 ->
  run cl (open_and_destroy_reader fname) s =
    mkRun (Normal OK) s2
          [Ev (hdfsOpenFile fname O_RDONLY) h; Ev (hdfsCloseFile h) r] /\
  run cl (HdfsWritableFile.delete (HdfsWritableFile.mk fname None)) s =
    mkRun (Normal tt) s [].
Proof.
  intros Hopen Hclose.
  unfold open_and_destroy_reader, HdfsEnv.NewSequentialFile, HdfsEnv.new_,
    HdfsReadableFile.new, HdfsReadableFile.delete.
  unfold_run. cbn [snd fst bind do HdfsReadableFile.hfile_]. unfold_run.
  split; reflexivity.
Qed.

Lemma reader_destructor_closes_any_handle_witness :
  closed (trace (run (Canned.client Canned.failing)
                   (open_and_destroy_reader "/db/MANIFEST-000002") tt))
    = [None].
Proof.
  destruct (reader_destructor_closes_any_handle (Canned.client Canned.failing)
              tt tt tt "/db/MANIFEST-000002" None (-1) eq_refl eq_refl)
    as [Hrun _].
  rewrite Hrun. reflexivity.
Defined.

Lemma NewWritableFile_tests_the_handle_witness :
  let fname := "/db/000003.log" in
  outcome (run (Canned.client Canned.idle)
             (HdfsEnv.NewWritableFile (mkCompilation false true) fname) tt)
    = Normal (OK, Some (HdfsWritableFile.mk fname (Some 7))) /\
  (exists err_number,
     outcome (run (Canned.client Canned.failing)
                (HdfsEnv.NewWritableFile (mkCompilation true true) fname) tt)
       = Normal (StIOError fname err_number, None)) /\
  outcome (run (Canned.client Canned.failing)
             (HdfsEnv.NewWritableFile (mkCompilation false true) fname) tt)
    = Failed AssertionFailed.
Proof.
  intros fname.
  pose proof (NewWritableFile_tests_the_handle (mkCompilation false true)
                (Canned.client Canned.idle) tt tt fname (Some 7) eq_refl)
    as (Hopened & _).
  pose proof (NewWritableFile_tests_the_handle (mkCompilation true true)
                (Canned.client Canned.failing) tt tt fname None eq_refl)
    as (_ & Hrelease & _).
  pose proof (NewWritableFile_tests_the_handle (mkCompilation false true)
                (Canned.client Canned.failing) tt tt fname None eq_refl)
    as (_ & _ & Hdebug).
  split; [apply (Hopened 7); reflexivity |].
  split; [apply Hrelease; reflexivity | apply Hdebug; reflexivity].
Defined.

(** ** More on the logger *)

Lemma closed_app (a b : list Event) : closed (a ++ b) = closed a ++ closed b.
Proof.
  induction a as [| [X c x] a IH]; [reflexivity |].
  cbn [app closed]. destruct c; cbn [app]; rewrite IH; reflexivity.
Qed.

Lemma written_app (a b : list Event) : written (a ++ b) = written a ++ written b.
Proof.
  induction a as [| [X c x] a IH]; [reflexivity |].
  cbn [app written]. destruct c; cbn [app]; rewrite IH; reflexivity.
Qed.

Lemma written_to_app (a b : list Event) :
  written_to (a ++ b) = written_to a ++ written_to b.
Proof.
  induction a as [| [X c x] a IH]; [reflexivity |].
  cbn [app written_to]. destruct c; cbn [app]; rewrite IH; reflexivity.
Qed.

(** The write of the line goes to the handle of the file, and nothing is
    closed. *)
Lemma write_line_handle (cl : Client) (s : St cl) (f : HdfsWritableFile.t)
    (line : list Byte.byte) :
  let r := run cl (_ <- HdfsWritableFile.Append_raw f line ;;
                   _ <- HdfsWritableFile.Flush f ;;
                   Ret tt) s in
  written_to (trace r) = [HdfsWritableFile.hfile_ f] /\ closed (trace r) = [].
Proof.
  unfold HdfsWritableFile.Append_raw, HdfsWritableFile.Flush.
  cbn [bind do]. any_answer r.
  destruct (negb _); cbn [bind IOError do].
  - any_answer e. cbn. split; reflexivity.
  - settle. cbn. split; reflexivity.
Qed.

(** Whatever the client answers, [Logv] returns, having handed one line
    that ends in a newline to [hdfsWrite] on the handle of its file, and
    having closed nothing. *)
Lemma Logv_run (cc : Compilation) (cl : Client) (s : St cl)
    (lg : HdfsLogger.t) (message : list Byte.byte) :
  let r := run cl (HdfsLogger.Logv cc lg message) s in
  outcome r = Normal tt /\
  written_to (trace r) = [HdfsWritableFile.hfile_ (HdfsLogger.file_ lg)] /\
  closed (trace r) = [] /\
  exists line, written (trace r) = [line] /\ ends_in_newline line.
Proof.
  unfold HdfsLogger.Logv. cbn [bind do]. any_answer thread_id.
  cbn [HdfsLogger.passes bind do]. any_answer tv0. any_answer tm0.
  pose proof (format_spec 0 (HdfsLogger.header tm0 tv0 thread_id) message) as H0.
  cbn zeta in H0.
  destruct (_ && _) in H0.
  - rewrite H0. cbn [bind do]. any_answer tv1. any_answer tm1.
    pose proof (format_spec (0 + 1) (HdfsLogger.header tm1 tv1 thread_id) message)
      as H1.
    cbn zeta in H1. change (0 + 1 =? 0) with false in H1.
    rewrite andb_false_r in H1. destruct H1 as (junk & -> & Hroom).
    cbn [bind]. rewrite (emit_spec cc lg (0 + 1) _ junk) by exact Hroom.
    match goal with
    | |- context [HdfsWritableFile.Append_raw ?f ?line] =>
        pose proof (write_line cl s4 f line) as (Ho & Hw & _);
        pose proof (write_line_handle cl s4 f line) as (Hto & Hcl)
    end.
    cbn. cbn in Ho, Hw, Hto, Hcl. rewrite Ho, Hw, Hto, Hcl.
    repeat split. eexists. split; [reflexivity | apply terminated_ends_in_newline].
  - destruct H0 as (junk & -> & Hroom).
    cbn [bind]. rewrite (emit_spec cc lg 0 _ junk) by exact Hroom.
    match goal with
    | |- context [HdfsWritableFile.Append_raw ?f ?line] =>
        pose proof (write_line cl s2 f line) as (Ho & Hw & _);
        pose proof (write_line_handle cl s2 f line) as (Hto & Hcl)
    end.
    cbn. cbn in Ho, Hw, Hto, Hcl. rewrite Ho, Hw, Hto, Hcl.
    repeat split. eexists. split; [reflexivity | apply terminated_ends_in_newline].
Qed.

(** X10.  A logger from [NewLogger] is bound to the file that [NewLogger]
    opened.  When the open succeeds, a call of [Logv] writes its line,
    which ends in a newline, to the handle that was opened, whatever the
    client answers to the write, and the deletion of the logger closes that
    handle, once.  When the open fails (and [assert] is compiled out),
    [NewLogger] returns an IOError and no logger: nothing is written and
    nothing is closed. *)
Theorem NewLogger_binds_logger_to_file (cc : Compilation) (cl : Client)
    (s s1 : St cl) (fname : string) (message : list Byte.byte) (h : hdfsFile) :
  answers cl (hdfsOpenFile fname O_WRONLY) s h s1 ->
  let r := run cl (log_once cc fname message) s in
  (forall handle, h = Some handle ->
     outcome r = Normal OK /\
     written_to (trace r) = [Some handle] /\
     closed (trace r) = [Some handle] /\
     exists line, written (trace r) = [line] /\ ends_in_newline line) /\
  (h = None -> NDEBUG cc = true ->
     returns_IOError r fname /\ written (trace r) = [] /\ closed (trace r) = []).
Proof.
  intros Hopen. unfold log_once, HdfsEnv.NewLogger, HdfsEnv.new_,
    HdfsWritableFile.new, HdfsLogger.new, returns_IOError.
  unfold_run. unfold assert_, HdfsWritableFile.isValid.
  cbn [HdfsWritableFile.hfile_]. split.
  - intros handle ->. rewrite orb_true_r.
    cbn [bind negb snd fst HdfsWritableFile.hfile_].
    set (lg := HdfsLogger.mk (HdfsWritableFile.mk fname (Some handle))).
    rewrite run_bind.
    pose proof (Logv_run cc cl s1 lg message) as (Ho & Hto & Hcl & line & Hw & Hnl).
    cbn zeta in Ho, Hto, Hcl, Hw. rewrite Ho. cbn zeta.
    cbn [outcome final trace logged].
    unfold HdfsLogger.delete, HdfsWritableFile.delete.
    cbn [HdfsLogger.file_ lg HdfsWritableFile.hfile_ bind do].
    any_answer r. cbn [closed written_to written app].
    rewrite closed_app, written_to_app, written_app, Hto, Hcl, Hw.
    cbn. repeat split. exists line. split; [reflexivity | exact Hnl].
  - intros -> Hrelease. rewrite Hrelease.
    cbn [orb bind negb snd fst HdfsWritableFile.hfile_ IOError do].
    any_answer e. cbn. repeat split. eauto.
Qed.

Lemma NewLogger_binds_logger_to_file_witness :
  let cc := mkCompilation true true in
  let message := Printf.bytes "recovering log #3" in
  (let r := run (Canned.client Canned.idle) (log_once cc "/db/LOG" message) tt in
   outcome r = Normal OK /\
   written_to (trace r) = [Some 7] /\ closed (trace r) = [Some 7]) /\
  (let r := run (Canned.client Canned.failing) (log_once cc "/db/LOG" message) tt in
   returns_IOError r "/db/LOG" /\ written (trace r) = [] /\ closed (trace r) = []).
Proof.
  intros cc message. split.
  - destruct (NewLogger_binds_logger_to_file cc (Canned.client Canned.idle)
                tt tt "/db/LOG" message (Some 7) eq_refl) as [Hopened _].
    destruct (Hopened 7 eq_refl) as (Ho & Hto & Hcl & _).
    repeat split; assumption.
  - destruct (NewLogger_binds_logger_to_file cc (Canned.client Canned.failing)
                tt tt "/db/LOG" message None eq_refl) as [_ Hfailed].
    apply Hfailed; reflexivity.
Defined.

(** ** More on the environment *)

(** X11.  [CreateDirIfMissing] asks whether the name exists and, on the
    answer 0, returns OK without a call of [hdfsCreateDirectory].  On every
    other answer, that of a failed check included, it calls
    [hdfsCreateDirectory] and returns OK when that returns 0 and an IOError
    otherwise.  On the name space held in memory the name exists afterwards,
    and a name that existed leaves the name space as it was. *)
Theorem CreateDirIfMissing_creates_only_if_missing (name : string) :
  (forall (cl : Client) (s s1 s2 : St cl) (value r : Z),
     answers cl (hdfsExists name) s value s1 ->
     answers cl (hdfsCreateDirectory name) s1 r s2 ->
     let res := run cl (HdfsEnv.CreateDirIfMissing name) s in
     (value = 0 ->
        res = mkRun (Normal OK) s1 [Ev (hdfsExists name) value]) /\
     (value <> 0 ->
        remote (trace res) =
          [Ev (hdfsExists name) value; Ev (hdfsCreateDirectory name) r] /\
        (r = 0 -> outcome res = Normal OK) /\
        (r <> 0 -> returns_IOError res name))) /\
  (forall ns : Namespace.state,
     let res := run Namespace.client (HdfsEnv.CreateDirIfMissing name) ns in
     outcome res = Normal OK /\
     name ∈ Namespace.paths (final res) /\
     (name ∈ Namespace.paths ns -> final res = ns)).
Proof.
  split.
  - intros cl s s1 s2 value r Hex Hmk.
    unfold HdfsEnv.CreateDirIfMissing, HdfsEnv.CreateDir, returns_IOError.
    unfold_run.
    destruct (Z.eqb_spec value 0) as [E | E].
    + settle. split; [reflexivity | contradiction].
    + split; [contradiction |]. intros _. unfold_run.
      destruct (Z.eqb_spec r 0) as [Er | Er].
      * settle. cbn. split; [reflexivity |]. split; [reflexivity | contradiction].
      * unfold_run. any_answer e. cbn.
        split; [reflexivity |]. split; [contradiction | eauto].
  - intros ns. unfold HdfsEnv.CreateDirIfMissing, HdfsEnv.CreateDir.
    cbn [bind do run Namespace.client answer Namespace.step].
    destruct (decide (name ∈ Namespace.paths ns)) as [Hin | Hout].
    + rewrite (bool_decide_eq_true_2 _ Hin). cbn.
      split; [reflexivity |]. split; [exact Hin | reflexivity].
    + rewrite (bool_decide_eq_false_2 _ Hout). cbn.
      split; [reflexivity |]. split; [| contradiction].
      apply elem_of_union_l, elem_of_singleton. reflexivity.
Qed.

Lemma CreateDirIfMissing_creates_only_if_missing_witness :
  (exists err_number,
     outcome (run (Canned.client Canned.failing) (HdfsEnv.CreateDirIfMissing "/db") tt)
       = Normal (StIOError "/db" err_number)) /\
  run Namespace.client (HdfsEnv.CreateDirIfMissing "/db") (Namespace.holding ["/db"])
    = mkRun (Normal OK) (Namespace.holding ["/db"]) [Ev (hdfsExists "/db") 0].
Proof.
  destruct (CreateDirIfMissing_creates_only_if_missing "/db") as [Hcalls _].
  split.
  - destruct (Hcalls (Canned.client Canned.failing) tt tt tt (-1) (-1)
                eq_refl eq_refl) as [_ Hmissing].
    destruct Hmissing as (_ & _ & Hio); [lia |]. apply Hio. lia.
  - destruct (Hcalls Namespace.client (Namespace.holding ["/db"])
                (Namespace.holding ["/db"])
                (Namespace.mk ({[ "/db" ]} ∪ Namespace.paths (Namespace.holding ["/db"])) 0)
                0 0) as [Hthere _].
    + vm_compute. reflexivity.
    + reflexivity.
    + apply Hthere. reflexivity.
Defined.

(** X12.  [DeleteFile] returns OK exactly when [hdfsDelete] returns 0, and
    [DeleteDir] is the same call.  On the name space held in memory, after
    [DeleteFile] the name does not exist, whether the deletion succeeded or
    not: a name that existed is removed and nothing else is, and for a name
    that did not exist the result is an IOError and the paths are left as
    they were. *)
Theorem DeleteFile_then_absent (fname : string) :
  (forall (cl : Client) (s s1 : St cl) (r : Z),
     answers cl (hdfsDelete fname) s r s1 ->
     let res := run cl (HdfsEnv.DeleteFile fname) s in
     remote (trace res) = [Ev (hdfsDelete fname) r] /\
     (outcome res = Normal OK <-> r = 0) /\
     (r <> 0 -> returns_IOError res fname) /\
     run cl (HdfsEnv.DeleteDir fname) s = res) /\
  (forall ns : Namespace.state,
     let res := run Namespace.client (delete_then_check fname) ns in
     Namespace.paths (final res) = Namespace.paths ns ∖ {[ fname ]} /\
     (fname ∈ Namespace.paths ns -> outcome res = Normal (OK, false)) /\
     (fname ∉ Namespace.paths ns ->
        outcome res = Normal (StIOError fname Namespace.ENOENT, false) /\
        Namespace.paths (final res) = Namespace.paths ns)).
Proof.
  split.
  - intros cl s s1 r Hdel. unfold HdfsEnv.DeleteDir, HdfsEnv.DeleteFile, returns_IOError.
    unfold_run. destruct (Z.eqb_spec r 0) as [E | E].
    + settle. cbn. split; [reflexivity |]. split; [tauto |].
      split; [contradiction | reflexivity].
    + unfold_run. any_answer e. cbn. split; [reflexivity |].
      split; [split; [discriminate | contradiction] |].
      split; [eauto | reflexivity].
  - intros ns. unfold delete_then_check, HdfsEnv.DeleteFile, HdfsEnv.FileExists.
    cbn [bind do run Namespace.client answer Namespace.step].
    destruct (decide (fname ∈ Namespace.paths ns)) as [Hin | Hout].
    + rewrite (bool_decide_eq_true_2 _ Hin).
      cbn [bind do run Namespace.client answer Namespace.step Namespace.paths
           Z.eqb].
      rewrite bool_decide_eq_false_2 by apply removed_is_absent.
      cbn. split; [reflexivity |]. split; [reflexivity | contradiction].
    + rewrite (bool_decide_eq_false_2 _ Hout).
      cbn [bind do run Namespace.client answer Namespace.step Namespace.paths
           Namespace.failed IOError Z.eqb Namespace.ENOENT Z.opp Pos.eqb].
      rewrite (bool_decide_eq_false_2 _ Hout). cbn.
      split; [| split; [contradiction |]; split; reflexivity].
      apply set_eq. intros x. rewrite elem_of_difference, elem_of_singleton.
      split; [| tauto]. intros Hx. split; [exact Hx |]. intros ->. contradiction.
Qed.

Lemma DeleteFile_then_absent_witness :
  outcome (run Namespace.client (delete_then_check "/db/000003.log")
             (Namespace.holding ["/db/000003.log"])) = Normal (OK, false) /\
  outcome (run Namespace.client (delete_then_check "/db/000003.log")
             (Namespace.holding []))
    = Normal (StIOError "/db/000003.log" Namespace.ENOENT, false) /\
  returns_IOError
    (run (Canned.client Canned.failing) (HdfsEnv.DeleteFile "/db/000003.log") tt)
    "/db/000003.log".
Proof.
  destruct (DeleteFile_then_absent "/db/000003.log") as [Hcall Hns].
  split; [| split].
  - apply (Hns (Namespace.holding ["/db/000003.log"])). vm_compute. reflexivity.
  - apply (Hns (Namespace.holding [])). vm_compute. discriminate.
  - destruct (Hcall (Canned.client Canned.failing) tt tt (-1) eq_refl)
      as (_ & _ & Hio & _).
    apply Hio. lia.
Defined.

(** X13.  [GetFileSize] and [GetFileModificationTime] each make one call of
    [hdfsGetPathInfo] and return OK with the field of the information, as a
    [uint64_t].  When there is no information both return the same
    IOError, but they leave different values behind: [GetFileSize] has set
    the size to 0, [GetFileModificationTime] leaves the time that the
    caller passed. *)
Theorem stat_queries_on_missing_file (cl : Client) (s s1 : St cl)
    (fname : string) (time : Z) (info : option hdfsFileInfo) :
  answers cl (hdfsGetPathInfo fname) s info s1 ->
  let size_run := run cl (HdfsEnv.GetFileSize fname) s in
  let time_run := run cl (HdfsEnv.GetFileModificationTime fname time) s in
  remote (trace size_run) = [Ev (hdfsGetPathInfo fname) info] /\
  remote (trace time_run) = [Ev (hdfsGetPathInfo fname) info] /\
  (forall i, info = Some i ->
     outcome size_run = Normal (OK, to_uint64 (mSize i)) /\
     outcome time_run = Normal (OK, to_uint64 (mLastMod i)) /\
     (0 <= mSize i < 2 ^ 63 -> to_uint64 (mSize i) = mSize i)) /\
  (info = None ->
     exists err_number,
       outcome size_run = Normal (StIOError fname err_number, 0) /\
       outcome time_run = Normal (StIOError fname err_number, time)).
Proof.
  intros Hstat. unfold HdfsEnv.GetFileSize, HdfsEnv.GetFileModificationTime.
  unfold_run. destruct info as [i |].
  - settle. cbn. split; [reflexivity |]. split; [reflexivity |].
    split; [| discriminate]. intros ? [= <-].
    split; [reflexivity |]. split; [reflexivity |].
    intros Hsize. apply to_uint64_in_range. lia.
  - unfold_run. any_answer e.
    assert (Herrno : answers cl errno s1 e s0) by exact E.
    unfold_run. cbn. split; [reflexivity |]. split; [reflexivity |].
    split; [discriminate |]. intros _. exists e. split; reflexivity.
Qed.

Lemma stat_queries_on_missing_file_witness :
  outcome (run (Canned.client stalled) (HdfsEnv.GetFileSize "/db/f") tt)
    = Normal (OK, 100) /\
  (exists err_number,
     outcome (run (Canned.client vanished) (HdfsEnv.GetFileSize "/db/f") tt)
       = Normal (StIOError "/db/f" err_number, 0) /\
     outcome (run (Canned.client vanished)
                (HdfsEnv.GetFileModificationTime "/db/f" 1380000000) tt)
       = Normal (StIOError "/db/f" err_number, 1380000000)).
Proof.
  destruct (stat_queries_on_missing_file (Canned.client stalled) tt tt "/db/f" 0
              (Some (mkFileInfo "/db/f" 100 0)) eq_refl)
    as (_ & _ & Hfound & _).
  destruct (Hfound _ eq_refl) as (Hsize & _ & _).
  destruct (stat_queries_on_missing_file (Canned.client vanished) tt tt "/db/f"
              1380000000 None eq_refl)
    as (_ & _ & _ & Hmissing).
  split; [exact Hsize | exact (Hmissing eq_refl)].
Defined.

(** X14.  On the name space held in memory, [RenameFile] of a source that
    exists to another name returns OK and replaces the target, whether or
    not the target existed: afterwards the target exists, the source does
    not, and every other path is as it was. *)
Theorem RenameFile_replaces_target (ns : Namespace.state) (src target : string) :
  src ∈ Namespace.paths ns ->
  src <> target ->
  let res := run Namespace.client (HdfsEnv.RenameFile src target) ns in
  outcome res = Normal OK /\
  target ∈ Namespace.paths (final res) /\
  (src ∉ Namespace.paths (final res)) /\
  (forall p, p <> src -> p <> target ->
     (p ∈ Namespace.paths (final res) <-> p ∈ Namespace.paths ns)).
Proof.
  intros Hsrc Hne. unfold HdfsEnv.RenameFile.
  assert (Hrename : forall X : gset string,
            src ∈ X -> target ∉ X ->
            (forall p, p <> target -> (p ∈ X <-> p ∈ Namespace.paths ns)) ->
            forall e,
            let res := run Namespace.client
                         (r <- do (hdfsRename src target) ;;
                          if r =? 0 then Ret OK else IOError src)
                         (Namespace.mk X e) in
            outcome res = Normal OK /\
            target ∈ Namespace.paths (final res) /\
            (src ∉ Namespace.paths (final res)) /\
            (forall p, p <> src -> p <> target ->
               (p ∈ Namespace.paths (final res) <-> p ∈ Namespace.paths ns))).
  { intros X HsrcX HtargetX Hothers e.
    cbn [bind do run Namespace.client answer Namespace.step Namespace.paths].
    rewrite (bool_decide_eq_true_2 _ HsrcX), (bool_decide_eq_false_2 _ HtargetX).
    cbn. split; [reflexivity |]. split; [| split].
    - apply elem_of_union_l, elem_of_singleton. reflexivity.
    - rewrite elem_of_union, elem_of_singleton, elem_of_difference, elem_of_singleton.
      intros [E | [_ E]]; [congruence | apply E; reflexivity].
    - intros p Hps Hpt.
      rewrite elem_of_union, elem_of_singleton, elem_of_difference, elem_of_singleton.
      rewrite <- (Hothers p Hpt). tauto. }
  cbn [bind do run Namespace.client answer Namespace.step].
  destruct (decide (target ∈ Namespace.paths ns)) as [Hin | Hout].
  - rewrite (bool_decide_eq_true_2 _ Hin).
    cbn [logged outcome final trace].
    apply (Hrename (Namespace.paths ns ∖ {[ target ]})).
    + rewrite elem_of_difference, elem_of_singleton. split; [exact Hsrc | exact Hne].
    + apply removed_is_absent.
    + intros p Hp. rewrite elem_of_difference, elem_of_singleton. tauto.
  - rewrite (bool_decide_eq_false_2 _ Hout).
    cbn [Namespace.failed logged outcome final trace].
    apply (Hrename (Namespace.paths ns)); [exact Hsrc | exact Hout | tauto].
Qed.

Lemma RenameFile_replaces_target_witness :
  let res := run Namespace.client (HdfsEnv.RenameFile "/db/new" "/db/CURRENT")
               (Namespace.holding ["/db/CURRENT"; "/db/new"; "/db/LOCK"]) in
  outcome res = Normal OK /\
  ("/db/CURRENT" ∈ Namespace.paths (final res)) /\
  ("/db/new" ∉ Namespace.paths (final res)) /\
  ("/db/LOCK" ∈ Namespace.paths (final res)).
Proof.
  intros res.
  destruct (RenameFile_replaces_target
              (Namespace.holding ["/db/CURRENT"; "/db/new"; "/db/LOCK"])
              "/db/new" "/db/CURRENT") as (Hok & Htarget & Hsrc & Hothers).
  - vm_compute. reflexivity.
  - discriminate.
  - split; [exact Hok |]. split; [exact Htarget |]. split; [exact Hsrc |].
    apply Hothers; [discriminate | discriminate | vm_compute; reflexivity].
Defined.

(** X15.  On the name space held in memory, [RenameFile] of a path that
    exists to itself destroys it: the path is deleted as the target, the
    rename then finds no source, and the result is an IOError. *)
Theorem RenameFile_to_itself_deletes (ns : Namespace.state) (name : string) :
  name ∈ Namespace.paths ns ->
  let res := run Namespace.client (HdfsEnv.RenameFile name name) ns in
  outcome res = Normal (StIOError name Namespace.ENOENT) /\
  Namespace.paths (final res) = Namespace.paths ns ∖ {[ name ]} /\
  name ∉ Namespace.paths (final res).
Proof.
  intros Hin. unfold HdfsEnv.RenameFile.
  cbn [bind do run Namespace.client answer Namespace.step].
  rewrite (bool_decide_eq_true_2 _ Hin).
  cbn [Namespace.paths Namespace.last_error].
  rewrite bool_decide_eq_false_2 by apply removed_is_absent.
  cbn. split; [reflexivity |]. split; [reflexivity | apply removed_is_absent].
Qed.

Lemma RenameFile_to_itself_deletes_witness :
  let res := run Namespace.client (HdfsEnv.RenameFile "/db/CURRENT" "/db/CURRENT")
               (Namespace.holding ["/db/CURRENT"]) in
  outcome res = Normal (StIOError "/db/CURRENT" Namespace.ENOENT) /\
  ("/db/CURRENT" ∉ Namespace.paths (final res)).
Proof.
  intros res.
  destruct (RenameFile_to_itself_deletes (Namespace.holding ["/db/CURRENT"])
              "/db/CURRENT") as (Hio & _ & Hgone).
  - vm_compute. reflexivity.
  - split; [exact Hio | exact Hgone].
Defined.

(** The loop of [GetChildren] makes no call, and what it returns begins
    with the vector it was given. *)
Lemma push_entries_extends (cl : Client) (pHdfsFileInfo : option (list hdfsFileInfo))
    (remaining : nat) :
  forall (i : Z) (result : list string) (s : St cl),
    let r := run cl (HdfsEnv.push_entries pHdfsFileInfo remaining i result) s in
    trace r = [] /\ final r = s /\
    forall res, outcome r = Normal res -> result `prefix_of` res.
Proof.
  induction remaining as [| k IH]; intros i result s; cbn [HdfsEnv.push_entries].
  - settle. repeat split. intros res [= <-]. reflexivity.
  - destruct (infos ← pHdfsFileInfo; infos !! Z.to_nat i) as [info |];
      cbn [mem bind].
    + destruct (IH (i + 1)
                  match CString.rindex (mName info) CString.slash with
                  | Some found => result ++ [CString.next found]
                  | None => result
                  end s) as (Htr & Hfin & Hpre).
      split; [exact Htr |]. split; [exact Hfin |].
      intros res Hres. specialize (Hpre res Hres).
      destruct (CString.rindex (mName info) CString.slash);
        [| exact Hpre].
      etransitivity; [| exact Hpre]. apply prefix_app_r. reflexivity.
    + settle. repeat split. discriminate.
Qed.

(** X16.  [GetChildren] never returns a status other than OK: whatever the
    client answers, it either returns OK or ends in a fatal condition
    (or reads past the array of a listing that is shorter than its count),
    and it never reads [errno].  When it returns, the vector begins with
    what the caller passed: nothing that was there is dropped or
    reordered. *)
Theorem GetChildren_returns_only_OK (cl : Client) (s : St cl) (path : string)
    (result : list string) :
  let r := run cl (HdfsEnv.GetChildren path result) s in
  (forall status res,
     outcome r = Normal (status, res) ->
     status = OK /\ result `prefix_of` res) /\
  (primitives (trace r) = [p_exists] \/
   primitives (trace r) = [p_exists; p_list]).
Proof.
  unfold HdfsEnv.GetChildren. cbn [bind do]. any_answer v.
  destruct (v =? 0).
  - cbn [bind do]. any_answer reply.
    destruct (ls_numEntries reply >=? 0).
    + rewrite run_bind.
      destruct (push_entries_extends cl (ls_infos reply)
                  (Z.to_nat (ls_numEntries reply)) 0 result s1)
        as (Htr & Hfin & Hpre).
      cbn zeta in Htr, Hfin, Hpre.
      destruct (outcome (run cl (HdfsEnv.push_entries (ls_infos reply)
                                   (Z.to_nat (ls_numEntries reply)) 0 result) s1))
        as [res |why] eqn:Hout.
      * cbn. rewrite Htr. cbn. split; [| right; reflexivity].
        intros status res' [= <- <-]. split; [reflexivity |].
        apply Hpre. reflexivity.
      * cbn. rewrite Htr. cbn. split; [discriminate | right; reflexivity].
    + settle. cbn. split; [discriminate | right; reflexivity].
  - destruct (v =? 1).
    + settle. cbn. split; [| left; reflexivity].
      intros status res [= <- <-]. split; reflexivity.
    + settle. cbn. split; [discriminate | left; reflexivity].
Qed.
